(** * AI Interview Trainer: the retry wrapper, the audio decoder, the
      interview and application state machines, and report persistence.

    A shallow embedding of the TypeScript sources.  Browser and SDK
    services (the generative-AI endpoint, [atob], [JSON.parse],
    [Date.now], the microphone) are oracles passed to the functions that
    use them; every effect the code performs on them is recorded in an
    explicit state. *)

From Stdlib Require Import String Ascii ZArith QArith.
From stdpp Require Import gmap list.
From Equations Require Import Equations.

Open Scope Z_scope.

(** ** JavaScript strings

    A string is its sequence of UTF-16 code units. *)

Abbreviation jsstring := (list N).

(** An ASCII literal as a [jsstring]. *)
Definition js (s : String.string) : jsstring :=
  Ascii.N_of_ascii <$> String.list_ascii_of_string s.
Arguments js s%_string.

(** [s.startsWith(needle)] and [s.includes(needle)]. *)
Fixpoint starts_with (needle s : jsstring) : bool :=
  match needle, s with
  | [], _ => true
  | _ :: _, [] => false
  | c :: needle', d :: s' => (c =? d)%N && starts_with needle' s'
  end.

Fixpoint includes (s needle : jsstring) : bool :=
  starts_with needle s ||
  match s with
  | [] => false
  | _ :: s' => includes s' needle
  end.

(** JavaScript truthiness of a string: non-empty. *)
Definition truthy (s : jsstring) : bool :=
  match s with [] => false | _ :: _ => true end.

(** ** Requests and responses of [ai.models.generateContent] *)

Inductive role := User | Model.

(** One entry of [conversationHistoryRef.current]:
    [{ role, parts: [{ text }] }]. *)
Record content := { c_role : role; c_text : jsstring }.

(** The three request shapes the component sends. *)
Inductive request :=
| TtsRequest (text : jsstring)
| TurnRequest (systemInstruction : option jsstring) (contents : list content)
| FeedbackRequest (prompt : jsstring).

(** What the component reads from a response: [response.text] and
    [response.candidates?.[0]?.content?.parts?.[0]?.inlineData?.data]. *)
Record response := { r_text : jsstring; r_audio : option jsstring }.

(** A thrown value, represented by [String(error)]. *)
Abbreviation error := jsstring.

Inductive outcome (A : Type) :=
| Fulfilled (a : A)
| Rejected (e : error).
Arguments Fulfilled {A} a.
Arguments Rejected {A} e.

(** The endpoint: the outcome of the call that is made when [n] calls
    have been made before it. *)
Definition endpoint := nat → request → outcome response.

(** What the wrapper does to the outside world: the calls it makes and
    the delays it sleeps, both in order. *)
Record net := { calls : list request; sleeps : list Z }.

Definition net0 : net := {| calls := []; sleeps := [] |}.

Definition record_call (rq : request) (w : net) : net :=
  {| calls := calls w ++ [rq]; sleeps := sleeps w |}.

Definition sleep (ms : Z) (w : net) : net :=
  {| calls := calls w; sleeps := sleeps w ++ [ms] |}.

(** ** generateContentWithRetry *)

Definition MAX_RETRIES : nat := 3.
Definition INITIAL_DELAY_MS : Z := 1000.

Definition is_rate_limit (e : error) : bool :=
  includes e (js "429") || includes e (js "RESOURCE_EXHAUSTED").

(** [INITIAL_DELAY_MS * Math.pow(2, attempt - 1)]. *)
Definition backoff_delay (attempt : nat) : Z :=
  INITIAL_DELAY_MS * 2 ^ (Z.of_nat attempt - 1).

Definition unreachable_error : error :=
  js "Error: generateContentWithRetry failed after all attempts.".

(** The [while (attempt < MAX_RETRIES)] loop, entered with the current
    value of [attempt]. *)
Equations? retry_loop (api : endpoint) (rq : request) (attempt : nat) (w : net)
  : outcome response * net by wf (MAX_RETRIES - attempt)%nat lt :=
  retry_loop api rq attempt w with decide (attempt < MAX_RETRIES)%nat => {
    | right _ => (Rejected unreachable_error, w)
    | left _ with api (length (calls w)) rq => {
      | Fulfilled r => (Fulfilled r, record_call rq w)
      | Rejected e with is_rate_limit e => {
        | false => (Rejected e, record_call rq w)
        | true with decide (MAX_RETRIES ≤ S attempt)%nat => {
          | left _ => (Rejected e, record_call rq w)
          | right _ =>
              retry_loop api rq (S attempt)
                (sleep (backoff_delay (S attempt)) (record_call rq w)) } } } }.
Proof. unfold MAX_RETRIES in *. lia. Qed.

Definition generateContentWithRetry (api : endpoint) (rq : request) (w : net)
  : outcome response * net :=
  retry_loop api rq 0 w.

(** ** Audio decoding *)

(** A [Uint8Array] is the list of its elements; storing a number keeps
    it modulo 256, and storing [NaN] (a [charCodeAt] out of range)
    stores 0. *)
Definition to_uint8 (code : option N) : N :=
  match code with
  | Some c => (c mod 256)%N
  | None => 0%N
  end.

Definition charCodeAt (s : jsstring) (i : nat) : option N := s !! i.

(** The body of [decode] after [atob]: a zero-filled [Uint8Array(len)]
    and the loop [for (i = 0; i < len; i++) bytes[i] = ...]. *)
Definition decode_binary (binaryString : jsstring) : list N :=
  let len := length binaryString in
  foldl (λ bytes i, <[i := to_uint8 (charCodeAt binaryString i)]> bytes)
        (replicate len 0%N) (seq 0 len).

(** [decode]; [atob] is the browser's, [None] where it throws. *)
Definition decode (atob : jsstring → option jsstring) (base64 : jsstring)
  : outcome (list N) :=
  match atob base64 with
  | None => Rejected (js "InvalidCharacterError")
  | Some binaryString => Fulfilled (decode_binary binaryString)
  end.

(** A 16-bit pattern read as a signed integer. *)
Definition to_int16 (x : Z) : Z :=
  let m := x mod 65536 in
  if m <? 32768 then m else m - 65536.

(** [new Int16Array(buffer)]: consecutive byte pairs, low byte first. *)
Fixpoint int16_view (bytes : list N) : list Z :=
  match bytes with
  | lo :: hi :: rest => to_int16 (Z.of_N lo + 256 * Z.of_N hi) :: int16_view rest
  | _ => []
  end.

(** An element of a [Float32Array].  Every quotient [v / 32768] with
    [v] a 16-bit integer is a binary32 number, so it is kept exactly. *)
Inductive f32 :=
| Num (q : Q)
| NaN.

(** An [AudioBuffer]: one list of frames per channel. *)
Abbreviation AudioBuffer := (list (list f32)).

(** An [AudioContext]: [createBuffer] returns a zero-filled buffer of
    the requested shape, or throws where the context refuses. *)
Record AudioContext := { can_create : nat → nat → Z → bool }.

Definition createBuffer (ctx : AudioContext) (numChannels length : nat) (sampleRate : Z)
  : option AudioBuffer :=
  if can_create ctx numChannels length sampleRate
  then Some (replicate numChannels (replicate length (Num 0)))
  else None.

(** [dataInt16[k] / 32768.0]; an index out of range reads [undefined]. *)
Definition pcm_sample (dataInt16 : list Z) (k : nat) : f32 :=
  match dataInt16 !! k with
  | Some v => Num (v # 32768)
  | None => NaN
  end.

(** Number of [i = 0, 1, ...] with [i < n / d] for the real quotient. *)
Definition iterations_below (n d : nat) : nat := ((n + d - 1) / d)%nat.

(** [decodeAudioData].  [frameCount] is the real quotient
    [dataInt16.length / numChannels]: [createBuffer] receives its
    integer part, the inner loop runs while [i < frameCount], and a
    store past the end of a channel is dropped. *)
Definition decodeAudioData (data : list N) (ctx : AudioContext)
    (sampleRate : Z) (numChannels : nat) : outcome AudioBuffer :=
  if Nat.odd (length data) then Rejected (js "RangeError")
  else
    let dataInt16 := int16_view data in
    match createBuffer ctx numChannels (length dataInt16 / numChannels)%nat sampleRate with
    | None => Rejected (js "NotSupportedError")
    | Some buffer =>
        Fulfilled
          (foldl (λ buffer channel,
                    match buffer !! channel with
                    | None => buffer
                    | Some channelData =>
                        <[channel :=
                            foldl (λ channelData i,
                                     <[i := pcm_sample dataInt16 (i * numChannels + channel)]>
                                       channelData)
                                  channelData
                                  (seq 0 (iterations_below (length dataInt16) numChannels))]>
                          buffer
                    end)
                 buffer (seq 0 numChannels))
    end.

(** ** Shared types (types.ts) *)

Inductive LanguageCode := EN | ML | HI | TA | TE | KN.

Inductive JobRole :=
| SoftwareEngineer | MarketingSpecialist | DataAnalyst | ProductManager
| UXDesigner | ProjectManager | FullStackDeveloper | FrontEndDeveloper
| BackEndDeveloper | ApplicationsDeveloper | CyberSecurityAnalyst
| DataScientist | AIMLEngineer | DigitalMarketingSpecialist
| EcommerceSpecialist | CloudEngineer | JuniorWebDeveloper | QATester.

Inductive ExperienceLevel := EntryLevel | MidCareer | Senior.

Inductive InterviewState :=
| welcome | language_select | role_select | level_select | in_progress | feedback.

Inductive Speaker := user | ai.

Record TranscriptMessage := {
  m_id : Z;
  m_speaker : Speaker;
  m_text : jsstring }.

Record InterviewFeedback := {
  overallScore : Z;
  strengths : list jsstring;
  areasForImprovement : list jsstring;
  actionableTips : list jsstring }.

(** ** InterviewScreen: data *)

Record Turn := {
  t_id : Z;
  t_question : jsstring;
  t_answer : option jsstring;
  t_feedback : option jsstring;
  t_score : option Z }.

Inductive InterviewStatus :=
| starting | ai_speaking | waiting_for_user | recording | processing_answer
| finished.

(** The object [JSON.parse(response.text)] of a turn request, read at
    [nextQuestion], [feedback] and [score].  A missing [nextQuestion]
    is the empty string: the code tests it for truthiness only. *)
Record TurnData := {
  nextQuestion : jsstring;
  td_feedback : jsstring;
  td_score : Z }.

(** The component's props. *)
Record Props := {
  p_language : LanguageCode;
  p_role : JobRole;
  p_level : ExperienceLevel }.

(** What the component takes from the browser, the SDK and the
    [constants] module; the prompt texts and the table of languages
    are kept abstract. *)
Record Services := {
  api : endpoint;
  JSON_parse_turn : jsstring → option TurnData;
  JSON_stringify_turn : TurnData → jsstring;
  JSON_parse_feedback : jsstring → option InterviewFeedback;
  getSystemPrompt : jsstring → JobRole → ExperienceLevel → jsstring;
  getFeedbackPrompt :
    list TranscriptMessage → jsstring → JobRole → ExperienceLevel → jsstring;
  supported_language_name : LanguageCode → option jsstring;
  atob : jsstring → option jsstring;
  outputAudioContext : AudioContext;
  SpeechRecognitionAPI : bool }.

(** The component: React state, refs, the closure variable [transcript]
    of the recognition effect, the browser sessions it has open, and the
    record of what it did. *)
Record Screen := {
  status : InterviewStatus;
  turns : list Turn;
  isGeneratingFeedback : bool;
  finalAnswer : option jsstring;
  conversationHistory : list content;
  transcript : jsstring;
  recognizing : bool;
  playing : bool;
  mounted : bool;
  world : net;
  edges : list (InterviewStatus * InterviewStatus);
  reported : list (list TranscriptMessage * InterviewFeedback) }.

Definition screen0 : Screen := {|
  status := starting; turns := []; isGeneratingFeedback := false;
  finalAnswer := None; conversationHistory := []; transcript := [];
  recognizing := false; playing := false; mounted := false;
  world := net0; edges := []; reported := [] |}.

(** [setStatus]: the write, and the transition it makes. *)
Definition setStatus (s : InterviewStatus) (c : Screen) : Screen := {|
  status := s; turns := turns c;
  isGeneratingFeedback := isGeneratingFeedback c;
  finalAnswer := finalAnswer c; conversationHistory := conversationHistory c;
  transcript := transcript c; recognizing := recognizing c;
  playing := playing c; mounted := mounted c; world := world c;
  edges := edges c ++ [(status c, s)]; reported := reported c |}.

Definition setTurns (f : list Turn → list Turn) (c : Screen) : Screen := {|
  status := status c; turns := f (turns c);
  isGeneratingFeedback := isGeneratingFeedback c;
  finalAnswer := finalAnswer c; conversationHistory := conversationHistory c;
  transcript := transcript c; recognizing := recognizing c;
  playing := playing c; mounted := mounted c; world := world c;
  edges := edges c; reported := reported c |}.

Definition setIsGeneratingFeedback (b : bool) (c : Screen) : Screen := {|
  status := status c; turns := turns c; isGeneratingFeedback := b;
  finalAnswer := finalAnswer c; conversationHistory := conversationHistory c;
  transcript := transcript c; recognizing := recognizing c;
  playing := playing c; mounted := mounted c; world := world c;
  edges := edges c; reported := reported c |}.

Definition setFinalAnswer (a : option jsstring) (c : Screen) : Screen := {|
  status := status c; turns := turns c;
  isGeneratingFeedback := isGeneratingFeedback c;
  finalAnswer := a; conversationHistory := conversationHistory c;
  transcript := transcript c; recognizing := recognizing c;
  playing := playing c; mounted := mounted c; world := world c;
  edges := edges c; reported := reported c |}.

Definition setHistory (h : list content) (c : Screen) : Screen := {|
  status := status c; turns := turns c;
  isGeneratingFeedback := isGeneratingFeedback c;
  finalAnswer := finalAnswer c; conversationHistory := h;
  transcript := transcript c; recognizing := recognizing c;
  playing := playing c; mounted := mounted c; world := world c;
  edges := edges c; reported := reported c |}.

Definition setTranscript (t : jsstring) (c : Screen) : Screen := {|
  status := status c; turns := turns c;
  isGeneratingFeedback := isGeneratingFeedback c;
  finalAnswer := finalAnswer c; conversationHistory := conversationHistory c;
  transcript := t; recognizing := recognizing c;
  playing := playing c; mounted := mounted c; world := world c;
  edges := edges c; reported := reported c |}.

Definition setRecognizing (b : bool) (c : Screen) : Screen := {|
  status := status c; turns := turns c;
  isGeneratingFeedback := isGeneratingFeedback c;
  finalAnswer := finalAnswer c; conversationHistory := conversationHistory c;
  transcript := transcript c; recognizing := b;
  playing := playing c; mounted := mounted c; world := world c;
  edges := edges c; reported := reported c |}.

Definition setPlaying (b : bool) (c : Screen) : Screen := {|
  status := status c; turns := turns c;
  isGeneratingFeedback := isGeneratingFeedback c;
  finalAnswer := finalAnswer c; conversationHistory := conversationHistory c;
  transcript := transcript c; recognizing := recognizing c;
  playing := b; mounted := mounted c; world := world c;
  edges := edges c; reported := reported c |}.

Definition setMounted (b : bool) (c : Screen) : Screen := {|
  status := status c; turns := turns c;
  isGeneratingFeedback := isGeneratingFeedback c;
  finalAnswer := finalAnswer c; conversationHistory := conversationHistory c;
  transcript := transcript c; recognizing := recognizing c;
  playing := playing c; mounted := b; world := world c;
  edges := edges c; reported := reported c |}.

Definition setWorld (w : net) (c : Screen) : Screen := {|
  status := status c; turns := turns c;
  isGeneratingFeedback := isGeneratingFeedback c;
  finalAnswer := finalAnswer c; conversationHistory := conversationHistory c;
  transcript := transcript c; recognizing := recognizing c;
  playing := playing c; mounted := mounted c; world := w;
  edges := edges c; reported := reported c |}.

(** [onInterviewEnd(transcript, feedback)], the parent's callback. *)
Definition onInterviewEnd (t : list TranscriptMessage) (f : InterviewFeedback)
    (c : Screen) : Screen := {|
  status := status c; turns := turns c;
  isGeneratingFeedback := isGeneratingFeedback c;
  finalAnswer := finalAnswer c; conversationHistory := conversationHistory c;
  transcript := transcript c; recognizing := recognizing c;
  playing := playing c; mounted := mounted c; world := world c;
  edges := edges c; reported := reported c ++ [(t, f)] |}.

(** ** String.prototype.trim *)

(** The code units ECMAScript counts as white space or line
    terminators. *)
Definition is_white_space (c : N) : bool :=
  ((9 <=? c) && (c <=? 13) || (c =? 32) || (c =? 160) || (c =? 5760)
   || (8192 <=? c) && (c <=? 8202) || (c =? 8232) || (c =? 8233)
   || (c =? 8239) || (c =? 8287) || (c =? 12288) || (c =? 65279))%N.

Fixpoint trim_start (s : jsstring) : jsstring :=
  match s with
  | [] => []
  | c :: s' => if is_white_space c then trim_start s' else s
  end.

Definition trim_end (s : jsstring) : jsstring :=
  reverse (trim_start (reverse s)).

Definition trim (s : jsstring) : jsstring := trim_end (trim_start s).

(** ** InterviewScreen: step functions *)

Section InterviewScreen.
Context (svc : Services) (P : Props).

(** [SUPPORTED_LANGUAGES.find(...)?.name || 'English']. *)
Definition languageName : jsstring :=
  match supported_language_name svc (p_language P) with
  | Some name => if truthy name then name else js "English"
  | None => js "English"
  end.

(** A call through the retry wrapper, on the component's network. *)
Definition request_with_retry (rq : request) (c : Screen)
  : outcome response * Screen :=
  let '(r, w) := generateContentWithRetry (api svc) rq (world c) in
  (r, setWorld w c).

(** [speakText].  When audio was started, the status stays
    [ai_speaking] until [source.onended] fires. *)
Definition speakText (text : jsstring) (c : Screen) : Screen :=
  if truthy text then
    let c := setStatus ai_speaking c in
    let '(r, c) := request_with_retry (TtsRequest text) c in
    match r with
    | Rejected _ => setStatus waiting_for_user c
    | Fulfilled response =>
        match r_audio response with
        | None => setStatus waiting_for_user c
        | Some base64Audio =>
            if truthy base64Audio then
              match decode (atob svc) base64Audio with
              | Rejected _ => setStatus waiting_for_user c
              | Fulfilled bytes =>
                  match decodeAudioData bytes (outputAudioContext svc) 24000 1 with
                  | Rejected _ => setStatus waiting_for_user c
                  | Fulfilled audioBuffer => setPlaying true c
                  end
              end
            else setStatus waiting_for_user c
        end
    end
  else c.

(** [source.onended]. *)
Definition onended (c : Screen) : Screen :=
  setPlaying false (setStatus waiting_for_user c).

Definition start_message : content :=
  {| c_role := User; c_text := js "Start the interview." |}.

(** [startInterview]; [now] is the value of [Date.now()]. *)
Definition startInterview (now : Z) (c : Screen) : Screen :=
  let c := setStatus processing_answer c in
  let systemInstruction :=
    getSystemPrompt svc languageName (p_role P) (p_level P) in
  let '(r, c) :=
    request_with_retry (TurnRequest (Some systemInstruction) [start_message]) c in
  match r with
  | Rejected _ => setStatus finished c
  | Fulfilled response =>
      match JSON_parse_turn svc (r_text response) with
      | None => setStatus finished c
      | Some turnData =>
          let firstQuestion := nextQuestion turnData in
          let c :=
            setTurns (λ _, [ {| t_id := now; t_question := firstQuestion;
                                t_answer := None; t_feedback := None;
                                t_score := None |} ]) c in
          let c :=
            setHistory
              [ start_message;
                {| c_role := Model; c_text := JSON_stringify_turn svc turnData |} ] c in
          speakText firstQuestion c
      end
  end.

(** [{ ...t, answer }]. *)
Definition with_answer (answer : jsstring) (t : Turn) : Turn :=
  {| t_id := t_id t; t_question := t_question t; t_answer := Some answer;
     t_feedback := t_feedback t; t_score := t_score t |}.

(** [{ ...t, feedback: turnData.feedback, score: turnData.score }]. *)
Definition with_feedback (turnData : TurnData) (t : Turn) : Turn :=
  {| t_id := t_id t; t_question := t_question t; t_answer := t_answer t;
     t_feedback := Some (td_feedback turnData);
     t_score := Some (td_score turnData) |}.

(** The updater passed to [setTurns] once the reply is parsed.  On an
    empty [prevTurns] the JavaScript spreads [undefined] into an
    object that is no [Turn]; [handleAnswerSubmit] has thrown before
    it can get there. *)
Definition close_last_turn (now : Z) (turnData : TurnData)
    (prevTurns : list Turn) : list Turn :=
  let lastTurnIndex := (length prevTurns - 1)%nat in
  match prevTurns !! lastTurnIndex with
  | None => prevTurns
  | Some lastTurn =>
      let updatedLastTurn := with_feedback turnData lastTurn in
      if truthy (nextQuestion turnData) then
        take lastTurnIndex prevTurns ++
          [ updatedLastTurn;
            {| t_id := now; t_question := nextQuestion turnData;
               t_answer := None; t_feedback := None; t_score := None |} ]
      else take lastTurnIndex prevTurns ++ [updatedLastTurn]
  end.

(** [handleAnswerSubmit].  The read of [turns[turns.length - 1].id]
    throws on an empty list, before the [try]: the promise rejects and
    neither [catch] nor [finally] runs. *)
Definition handleAnswerSubmit (now : Z) (answer : jsstring) (c : Screen) : Screen :=
  if negb (truthy (trim answer)) then setStatus waiting_for_user c
  else
    let c := setStatus processing_answer c in
    match last (turns c) with
    | None => c
    | Some lastTurn =>
        let currentTurnId := t_id lastTurn in
        let c :=
          setTurns (map (λ t, if t_id t =? currentTurnId
                              then with_answer answer t else t)) c in
        let updatedHistory :=
          conversationHistory c ++ [ {| c_role := User; c_text := answer |} ] in
        let '(r, c) := request_with_retry (TurnRequest None updatedHistory) c in
        let c :=
          match r with
          | Rejected _ => setStatus waiting_for_user c
          | Fulfilled response =>
              match JSON_parse_turn svc (r_text response) with
              | None => setStatus waiting_for_user c
              | Some turnData =>
                  let c := setTurns (close_last_turn now turnData) c in
                  let c :=
                    setHistory
                      (updatedHistory ++
                         [ {| c_role := Model;
                              c_text := JSON_stringify_turn svc turnData |} ]) c in
                  if truthy (nextQuestion turnData)
                  then speakText (nextQuestion turnData) c
                  else setStatus finished c
              end
          end in
        setFinalAnswer None c
    end.

(** The effect on [finalAnswer], at its first run for a value: a
    changed, truthy value is submitted.  Its later runs, for the same
    value and a new [handleAnswerSubmit], are [run_effect] of the
    interleaved system. *)
Definition submit_final_answer (now : Z) (answer : jsstring) (c : Screen) : Screen :=
  if decide (finalAnswer c = Some answer) then c
  else handleAnswerSubmit now answer (setFinalAnswer (Some answer) c).

(** [recognition.onresult], [recognition.onend], [recognition.onerror]. *)
Definition onresult (t : jsstring) (c : Screen) : Screen := setTranscript t c.

Definition onend (now : Z) (c : Screen) : Screen :=
  let c := setRecognizing false c in
  if truthy (transcript c) then submit_final_answer now (transcript c) c
  else setStatus waiting_for_user c.

Definition onerror (c : Screen) : Screen := setStatus waiting_for_user c.

(** [handleToggleRecording]; [microphone] tells whether
    [getUserMedia] resolves.  [recognition.stop()] changes nothing
    here: the session ends with [onend].  [recognition.start()] on a
    session that is still open throws into the [catch]. *)
Definition handleToggleRecording (microphone : bool) (c : Screen) : Screen :=
  if negb (SpeechRecognitionAPI svc) then c
  else
    match status c with
    | recording => c
    | waiting_for_user =>
        if microphone then
          let c := setStatus recording c in
          if recognizing c then c else setRecognizing true c
        else c
    | _ => c
    end.

Definition ai_message (turn : Turn) : TranscriptMessage :=
  {| m_id := t_id turn; m_speaker := ai; m_text := t_question turn |}.

Definition user_message (turn : Turn) (answer : jsstring) : TranscriptMessage :=
  {| m_id := t_id turn + 1; m_speaker := user; m_text := answer |}.

(** The [turns.reduce(...)] of [handleEndInterview]; [acc.push(m)]
    is [acc ++ [m]]. *)
Definition finalTranscript (turns : list Turn) : list TranscriptMessage :=
  foldl (λ acc turn,
           let acc := acc ++ [ai_message turn] in
           match t_answer turn with
           | Some answer =>
               if truthy answer then acc ++ [user_message turn answer] else acc
           | None => acc
           end)
        [] turns.

Definition fallbackFeedback : InterviewFeedback := {|
  overallScore := 0;
  strengths := [js "Could not generate feedback."];
  areasForImprovement := [js "There was an error analyzing the transcript."];
  actionableTips := [js "Please try another interview."] |}.

(** [handleEndInterview]. *)
Definition handleEndInterview (c : Screen) : Screen :=
  let c := setIsGeneratingFeedback true c in
  let c := setStatus finished c in
  let messages := finalTranscript (turns c) in
  let prompt :=
    getFeedbackPrompt svc messages languageName (p_role P) (p_level P) in
  let '(r, c) := request_with_retry (FeedbackRequest prompt) c in
  let c :=
    match r with
    | Rejected _ => onInterviewEnd messages fallbackFeedback c
    | Fulfilled response =>
        match JSON_parse_feedback svc (r_text response) with
        | None => onInterviewEnd messages fallbackFeedback c
        | Some feedbackJson => onInterviewEnd messages feedbackJson c
        end
    end in
  setIsGeneratingFeedback false c.

(** *** The component as an event system, one handler at a time

    The runs in which each handler completes before the next event
    comes, and a final answer is submitted by the effect once.  They
    show what the handlers can do; what holds of every run is stated
    of the interleaved system further down, where a handler is
    suspended at each [await] and the effect runs again whenever
    [handleAnswerSubmit] is a new function. *)
Inductive Event :=
| Mount (now : Z)
| AudioEnded
| ToggleRecording (microphone : bool)
| RecognitionResult (t : jsstring)
| RecognitionError
| RecognitionEnd (now : Z)
| EndInterview.

Definition is_nil {A} (l : list A) : bool :=
  match l with [] => true | _ => false end.

(** Which events can reach the component: the mount effect runs once;
    audio and recognition events need an open session; the End button
    carries [disabled={status === 'starting' || status === 'recording'
    || status === 'ai_speaking' || isGeneratingFeedback}]; and once
    [onInterviewEnd] was called the parent shows another screen. *)
Definition enabled (e : Event) (c : Screen) : bool :=
  match e with
  | Mount _ => negb (mounted c)
  | _ =>
      mounted c && is_nil (reported c) &&
      match e with
      | Mount _ => false
      | AudioEnded => playing c
      | ToggleRecording _ => true
      | RecognitionResult _ | RecognitionError | RecognitionEnd _ => recognizing c
      | EndInterview =>
          match status c with
          | starting | recording | ai_speaking => false
          | _ => negb (isGeneratingFeedback c)
          end
      end
  end.

Definition handle (e : Event) (c : Screen) : Screen :=
  match e with
  | Mount now => startInterview now (setMounted true c)
  | AudioEnded => onended c
  | ToggleRecording microphone => handleToggleRecording microphone c
  | RecognitionResult t => onresult t c
  | RecognitionError => onerror c
  | RecognitionEnd now => onend now c
  | EndInterview => handleEndInterview c
  end.

Inductive reachable : Screen → Prop :=
| reachable_init : reachable screen0
| reachable_step e c :
    reachable c → enabled e c = true → reachable (handle e c).

End InterviewScreen.



(** The transitions the step functions do take. *)
Definition status_edge (e : InterviewStatus * InterviewStatus) : bool :=
  match e with
  | (starting, processing_answer)
  | (processing_answer, ai_speaking)
  | (processing_answer, waiting_for_user)
  | (processing_answer, finished)
  | (ai_speaking, waiting_for_user)
  | (waiting_for_user, recording)
  | (waiting_for_user, waiting_for_user)
  | (waiting_for_user, processing_answer)
  | (waiting_for_user, finished)
  | (recording, waiting_for_user)
  | (recording, processing_answer)
  | (finished, finished) => true
  | _ => false
  end.

(** ** JSON values *)

(** Values of [JSON.parse]. *)
#[warnings="-register-all"]
Inductive json :=
| JNull
| JBool (b : bool)
| JNum (n : Z)
| JStr (s : jsstring)
| JArr (items : list json)
| JObj (fields : list (jsstring * json)).

(** JavaScript truthiness of a JSON value. *)
Definition json_truthy (v : json) : bool :=
  match v with
  | JNull => false
  | JBool b => b
  | JNum n => negb (n =? 0)
  | JStr s => truthy s
  | JArr _ | JObj _ => true
  end.

(** ** App: the top-level state machine *)

(** What [onInterviewEnd] is handed as feedback: the fallback literal
    or an object read as an [InterviewFeedback], or whatever else
    [JSON.parse] returned ([null], a number, ...); nothing checks it. *)
Inductive FeedbackValue :=
| FeedbackRecord (f : InterviewFeedback)
| FeedbackJson (v : json).

Definition feedback_truthy (f : FeedbackValue) : bool :=
  match f with
  | FeedbackRecord _ => true
  | FeedbackJson v => json_truthy v
  end.

(** The value as the [feedback] state holds it: [null] is the state's
    own [null]. *)
Definition as_feedback_state (f : FeedbackValue) : option FeedbackValue :=
  match f with
  | FeedbackJson JNull => None
  | _ => Some f
  end.

Record App := {
  interviewState : InterviewState;
  selectedLanguage : option LanguageCode;
  selectedRole : option JobRole;
  selectedLevel : option ExperienceLevel;
  a_finalTranscript : list TranscriptMessage;
  a_feedback : option FeedbackValue }.

Definition app0 : App := {|
  interviewState := welcome; selectedLanguage := None; selectedRole := None;
  selectedLevel := None; a_finalTranscript := []; a_feedback := None |}.

Definition setInterviewState (s : InterviewState) (a : App) : App := {|
  interviewState := s; selectedLanguage := selectedLanguage a;
  selectedRole := selectedRole a; selectedLevel := selectedLevel a;
  a_finalTranscript := a_finalTranscript a; a_feedback := a_feedback a |}.

Definition setSelectedLanguage (l : option LanguageCode) (a : App) : App := {|
  interviewState := interviewState a; selectedLanguage := l;
  selectedRole := selectedRole a; selectedLevel := selectedLevel a;
  a_finalTranscript := a_finalTranscript a; a_feedback := a_feedback a |}.

Definition setSelectedRole (r : option JobRole) (a : App) : App := {|
  interviewState := interviewState a; selectedLanguage := selectedLanguage a;
  selectedRole := r; selectedLevel := selectedLevel a;
  a_finalTranscript := a_finalTranscript a; a_feedback := a_feedback a |}.

Definition setSelectedLevel (l : option ExperienceLevel) (a : App) : App := {|
  interviewState := interviewState a; selectedLanguage := selectedLanguage a;
  selectedRole := selectedRole a; selectedLevel := l;
  a_finalTranscript := a_finalTranscript a; a_feedback := a_feedback a |}.

Definition setFinalTranscript (t : list TranscriptMessage) (a : App) : App := {|
  interviewState := interviewState a; selectedLanguage := selectedLanguage a;
  selectedRole := selectedRole a; selectedLevel := selectedLevel a;
  a_finalTranscript := t; a_feedback := a_feedback a |}.

Definition setFeedback (f : option FeedbackValue) (a : App) : App := {|
  interviewState := interviewState a; selectedLanguage := selectedLanguage a;
  selectedRole := selectedRole a; selectedLevel := selectedLevel a;
  a_finalTranscript := a_finalTranscript a; a_feedback := f |}.

Definition handleGetStarted (a : App) : App :=
  setInterviewState language_select a.

Definition handleLanguageSelect (languageCode : LanguageCode) (a : App) : App :=
  setInterviewState role_select (setSelectedLanguage (Some languageCode) a).

Definition handleRoleSelect (r : JobRole) (a : App) : App :=
  setInterviewState level_select (setSelectedRole (Some r) a).

Definition handleLevelSelect (level : ExperienceLevel) (a : App) : App :=
  setInterviewState in_progress (setSelectedLevel (Some level) a).

Definition handleInterviewEnd (t : list TranscriptMessage) (f : FeedbackValue)
    (a : App) : App :=
  setInterviewState feedback
    (setFeedback (as_feedback_state f) (setFinalTranscript t a)).

Definition handleRestart (a : App) : App :=
  setInterviewState welcome
    (setFeedback None
       (setFinalTranscript []
          (setSelectedLevel None
             (setSelectedRole None (setSelectedLanguage None a))))).

(** What [renderContent] returns. *)
Inductive Rendered :=
| WelcomeScreen
| LanguageSelector
| RoleSelector
| LevelSelector
| InterviewScreen (language : LanguageCode) (r : JobRole) (level : ExperienceLevel)
| FeedbackScreen (f : FeedbackValue) (t : list TranscriptMessage)
| ErrorMessage
| Nothing.

(** [renderContent]: the element shown and, in the fallback of
    ['in-progress'], the state it sets.  On ['feedback'] the test
    [!feedback] sends every falsy value to the error text. *)
Definition renderContent (a : App) : Rendered * App :=
  match interviewState a with
  | welcome => (WelcomeScreen, a)
  | language_select => (LanguageSelector, a)
  | role_select => (RoleSelector, a)
  | level_select => (LevelSelector, a)
  | in_progress =>
      match selectedLanguage a, selectedRole a, selectedLevel a with
      | Some language, Some r, Some level => (InterviewScreen language r level, a)
      | _, _, _ => (Nothing, setInterviewState language_select a)
      end
  | feedback =>
      match a_feedback a with
      | None => (ErrorMessage, a)
      | Some f =>
          if feedback_truthy f then (FeedbackScreen f (a_finalTranscript a), a)
          else (ErrorMessage, a)
      end
  end.

(** The callbacks the rendered element can invoke. *)
Inductive AppEvent :=
| GetStarted
| SelectLanguage (languageCode : LanguageCode)
| SelectRole (r : JobRole)
| SelectLevel (level : ExperienceLevel)
| InterviewEnd (t : list TranscriptMessage) (f : FeedbackValue)
| Cancel
| Restart.

Definition offers (shown : Rendered) (e : AppEvent) : bool :=
  match shown, e with
  | WelcomeScreen, GetStarted
  | LanguageSelector, SelectLanguage _
  | RoleSelector, SelectRole _
  | LevelSelector, SelectLevel _
  | InterviewScreen _ _ _, InterviewEnd _ _
  | InterviewScreen _ _ _, Cancel
  | FeedbackScreen _ _, Restart => true
  | _, _ => false
  end.

Definition app_handle (e : AppEvent) (a : App) : App :=
  match e with
  | GetStarted => handleGetStarted a
  | SelectLanguage languageCode => handleLanguageSelect languageCode a
  | SelectRole r => handleRoleSelect r a
  | SelectLevel level => handleLevelSelect level a
  | InterviewEnd t f => handleInterviewEnd t f a
  | Cancel | Restart => handleRestart a
  end.

(** One round: render, then run the callback if the element shown
    offers it. *)
Definition app_step (e : AppEvent) (a : App) : App :=
  let '(shown, a) := renderContent a in
  if offers shown e then app_handle e a else a.

Inductive app_reachable : App → Prop :=
| app_reachable_init : app_reachable app0
| app_reachable_step e a : app_reachable a → app_reachable (app_step e a).

(** The order of the steps. *)
Definition next_step (s : InterviewState) : option InterviewState :=
  match s with
  | welcome => Some language_select
  | language_select => Some role_select
  | role_select => Some level_select
  | level_select => Some in_progress
  | in_progress => Some feedback
  | feedback => None
  end.

Definition is_selection (e : AppEvent) : bool :=
  match e with
  | GetStarted | SelectLanguage _ | SelectRole _ | SelectLevel _ => true
  | _ => false
  end.

(** ** FeedbackScreen: saving a report *)

(** The browser services [handleSave] uses. *)
Record Browser := {
  JSON_parse : jsstring → option json;
  JSON_stringify : json → jsstring;
  number_toString : Z → jsstring;
  toISOString : Z → jsstring;
  storage_accepts : gmap jsstring jsstring → jsstring → jsstring → bool }.

Record FeedbackState := {
  localStorage : gmap jsstring jsstring;
  isSaved : bool;
  alerts : nat }.

Definition REPORTS_KEY : jsstring := js "ai-interview-reports".

Definition strings_json (l : list jsstring) : json := JArr (JStr <$> l).

Definition feedback_json (f : InterviewFeedback) : json :=
  JObj [ (js "overallScore", JNum (overallScore f));
         (js "strengths", strings_json (strengths f));
         (js "areasForImprovement", strings_json (areasForImprovement f));
         (js "actionableTips", strings_json (actionableTips f)) ].

Definition speaker_json (s : Speaker) : json :=
  match s with user => JStr (js "user") | ai => JStr (js "ai") end.

Definition message_json (m : TranscriptMessage) : json :=
  JObj [ (js "id", JNum (m_id m));
         (js "speaker", speaker_json (m_speaker m));
         (js "text", JStr (m_text m)) ].

Section FeedbackScreen.
Context (B : Browser) (f : InterviewFeedback) (t : list TranscriptMessage).

(** The [report] object; [now] and [now'] are the two clock reads. *)
Definition make_report (now now' : Z) : json :=
  JObj [ (js "id", JStr (js "report-" ++ number_toString B now));
         (js "feedback", feedback_json f);
         (js "transcript", JArr (message_json <$> t));
         (js "savedAt", JStr (toISOString B now')) ].

(** [existingReportsRaw ? JSON.parse(existingReportsRaw) : []];
    [None] where [JSON.parse] throws. *)
Definition existingReports (st : FeedbackState) : option json :=
  match localStorage st !! REPORTS_KEY with
  | Some existingReportsRaw =>
      if truthy existingReportsRaw then JSON_parse B existingReportsRaw
      else Some (JArr [])
  | None => Some (JArr [])
  end.

Definition save_failed (st : FeedbackState) : FeedbackState :=
  {| localStorage := localStorage st; isSaved := isSaved st;
     alerts := S (alerts st) |}.

(** [handleSave].  [unshift] exists on arrays only, and [setItem]
    throws when the storage refuses the value; every throw lands in
    the [catch]. *)
Definition handleSave (now now' : Z) (st : FeedbackState) : FeedbackState :=
  let report := make_report now now' in
  match existingReports st with
  | Some (JArr existing) =>
      let existing := report :: existing in
      let value := JSON_stringify B (JArr existing) in
      if storage_accepts B (localStorage st) REPORTS_KEY value then
        {| localStorage := <[REPORTS_KEY := value]> (localStorage st);
           isSaved := true; alerts := alerts st |}
      else save_failed st
  | _ => save_failed st
  end.

End FeedbackScreen.

(** ** Vocabulary of the statements about the retry wrapper *)

(** The first [k] calls made from [n0] on are all rejected with a
    rate-limit error. *)
Definition rate_limited (api : endpoint) (rq : request) (n0 k : nat) : Prop :=
  ∀ j, (j < k)%nat →
       ∃ e, api (n0 + j)%nat rq = Rejected e ∧ is_rate_limit e = true.

(** The network after [k] rate-limited rounds entered at [attempt]. *)
Definition after_retries (rq : request) (attempt k : nat) (w : net) : net :=
  {| calls := calls w ++ replicate k rq;
     sleeps := sleeps w ++ (backoff_delay <$> seq (S attempt) k) |}.

(** ** Sample services *)

Definition sample_response : response :=
  {| r_text := js "{}"; r_audio := None |}.

(** Two rate-limited rejections, then a response. *)
Definition api_recovers : endpoint :=
  λ n _, match n with
         | 0%nat | 1%nat => Rejected (js "ApiError: 429 Too Many Requests")
         | _ => Fulfilled sample_response
         end.

(** One rate-limited rejection, then an error of another kind. *)
Definition api_breaks : endpoint :=
  λ n _, match n with
         | 0%nat => Rejected (js "ApiError: RESOURCE_EXHAUSTED")
         | _ => Rejected (js "TypeError: Failed to fetch")
         end.

(** Rate-limited for ever; the error carries the number of the call. *)
Definition api_exhausted : endpoint :=
  λ n _, Rejected (js "ApiError: 429 call " ++ [N.of_nat n]).

(** An endpoint that is down. *)
Definition api_down : endpoint :=
  λ _ _, Rejected (js "TypeError: Failed to fetch").

(** A context that creates every buffer it is asked for. *)
Definition plain_context : AudioContext := {| can_create := λ _ _ _, true |}.

(** Four base64 characters and the three bytes they stand for. *)
Definition atob_sample : jsstring → option jsstring :=
  λ s, if decide (s = js "AID/fw==") then Some [0; 128; 255; 127]%N else None.

(** ** Vocabulary of the statements about the transcript *)

(** A turn has an answer when [turn.answer] is truthy: a string, and
    not the empty one. *)
Definition has_answer (turn : Turn) : bool :=
  match t_answer turn with
  | Some answer => truthy answer
  | None => false
  end.

(** The messages one turn contributes, in the words of the
    specification: the question, spoken by the interviewer, followed by
    the answer, spoken by the user, when there is one. *)
Definition turn_messages (turn : Turn) : list TranscriptMessage :=
  {| m_id := t_id turn; m_speaker := ai; m_text := t_question turn |} ::
  match t_answer turn with
  | Some answer =>
      if has_answer turn
      then [ {| m_id := t_id turn + 1; m_speaker := user; m_text := answer |} ]
      else []
  | None => []
  end.

Definition sample_turns : list Turn :=
  [ {| t_id := 100; t_question := js "Tell me about yourself.";
       t_answer := Some (js "I write compilers."); t_feedback := Some (js "Good.");
       t_score := Some 8 |};
    {| t_id := 200; t_question := js "Why this role?";
       t_answer := None; t_feedback := None; t_score := None |} ].

Definition sample_turn_data : TurnData :=
  {| nextQuestion := js "What is a monad?"; td_feedback := js "Clear and brief.";
     td_score := 7 |}.

Definition sample_feedback : InterviewFeedback :=
  {| overallScore := 72; strengths := [js "Concise answers"];
     areasForImprovement := [js "Give examples"];
     actionableTips := [js "Practise aloud"] |}.

(** An endpoint that answers every request: audio for speech, and
    texts that the sample parsers below read. *)
Definition api_answers : endpoint :=
  λ _ rq, match rq with
          | TtsRequest _ =>
              Fulfilled {| r_text := []; r_audio := Some (js "AID/fw==") |}
          | TurnRequest _ _ =>
              Fulfilled {| r_text := js "turn"; r_audio := None |}
          | FeedbackRequest _ =>
              Fulfilled {| r_text := js "feedback"; r_audio := None |}
          end.

Definition sample_services (endpoint_ : endpoint) : Services := {|
  api := endpoint_;
  JSON_parse_turn := λ s, if decide (s = js "turn") then Some sample_turn_data else None;
  JSON_stringify_turn := λ _, js "turn";
  JSON_parse_feedback :=
    λ s, if decide (s = js "feedback") then Some sample_feedback else None;
  getSystemPrompt := λ _ _ _, js "You are Alex, an interviewer.";
  getFeedbackPrompt := λ _ _ _ _, js "Assess this interview.";
  supported_language_name := λ _, Some (js "English");
  atob := atob_sample;
  outputAudioContext := plain_context;
  SpeechRecognitionAPI := true |}.

Definition sample_props : Props :=
  {| p_language := EN; p_role := SoftwareEngineer; p_level := Senior |}.

(** A screen waiting while the user records the answer to the first
    question. *)
Definition sample_screen : Screen := {|
  status := recording;
  turns := [ {| t_id := 100; t_question := js "Tell me about yourself.";
                t_answer := None; t_feedback := None; t_score := None |} ];
  isGeneratingFeedback := false; finalAnswer := None;
  conversationHistory := [start_message]; transcript := [];
  recognizing := true; playing := false; mounted := true;
  world := net0; edges := []; reported := [] |}.

(** ** Vocabulary of the statements about the application *)

(** What the selection steps have stored by the time a step is
    shown. *)
Definition selections_made (a : App) : Prop :=
  match interviewState a with
  | welcome | language_select | feedback => True
  | role_select => is_Some (selectedLanguage a)
  | level_select => is_Some (selectedLanguage a) ∧ is_Some (selectedRole a)
  | in_progress =>
      is_Some (selectedLanguage a) ∧ is_Some (selectedRole a)
      ∧ is_Some (selectedLevel a)
  end.

(** The application after the three selections. *)
Definition app_selected : App :=
  app_step (SelectLevel MidCareer)
    (app_step (SelectRole DataAnalyst)
       (app_step (SelectLanguage HI) (app_step GetStarted app0))).

(** ** Sample browser for the feedback screen *)

(** A browser whose [JSON.parse] reads the texts its [JSON.stringify]
    has written for the lists below; texts are tagged by the number of
    reports. *)
Definition sample_stored_report : json :=
  JObj [ (js "id", JStr (js "report-1"));
         (js "savedAt", JStr (js "2025-01-01T00:00:00.000Z")) ].

Definition sample_browser : Browser := {|
  JSON_parse :=
    λ s, if decide (s = js "[1 report]") then Some (JArr [sample_stored_report])
         else None;
  JSON_stringify :=
    λ v, match v with
         | JArr l => js "[" ++ [(48 + N.of_nat (length l))%N] ++ js " reports]"
         | _ => js "null"
         end;
  number_toString := λ _, js "1735689600000";
  toISOString := λ _, js "2025-01-01T00:00:00.000Z";
  storage_accepts := λ _ _ _, true |}.

Definition sample_feedback_state : FeedbackState := {|
  localStorage := {[ REPORTS_KEY := js "[1 report]" ]};
  isSaved := false; alerts := 0 |}.

(** ** Runs of the event system *)

(** Runs a list of events from a screen; [None] when one of them is
    not enabled where it comes. *)
Fixpoint run_events (svc : Services) (P : Props) (es : list Event) (c : Screen)
  : option Screen :=
  match es with
  | [] => Some c
  | e :: es =>
      if enabled e c then run_events svc P es (handle svc P e c) else None
  end.

(** An endpoint that answers the first [n] calls and is down after. *)
Definition api_answers_first (n : nat) : endpoint :=
  λ k rq, if (k <? n)%nat then api_answers k rq else api_down k rq.

(** A whole interview of one answer, ended by the user. *)
Definition interview_events : list Event :=
  [ Mount 100; AudioEnded; ToggleRecording true;
    RecognitionResult (js "I write compilers."); RecognitionEnd 200;
    AudioEnded; EndInterview ].

(** A recognition error, followed by the end of the session. *)
Definition error_events (heard : jsstring) : list Event :=
  [ Mount 100; AudioEnded; ToggleRecording true; RecognitionResult heard;
    RecognitionError; RecognitionEnd 200 ].

#[global] Instance InterviewStatus_eq_dec : EqDecision InterviewStatus.
Proof. solve_decision. Defined.

(** Whether the run of [es] from the initial screen takes the
    transition [e]. *)
Definition run_takes (svc : Services) (es : list Event)
    (e : InterviewStatus * InterviewStatus) : bool :=
  match run_events svc sample_props es screen0 with
  | Some c => bool_decide (e ∈ edges c)
  | None => false
  end.

(** No answered turn holds an empty answer. *)
Definition answer_not_empty (turn : Turn) : Prop := t_answer turn ≠ Some [].

(** ** InterviewScreen: the controls it renders *)

Inductive Indicator := SoundWave | Spinner.

(** The lower part of the screen: a busy indicator with its caption,
    the microphone area (a canvas while recording, a hint otherwise,
    and the button with its [disabled] attribute and title), or
    nothing. *)
Inductive Controls :=
| Busy (icon : Indicator) (caption : jsstring)
| Microphone (canvas : bool) (disabled : bool) (title : jsstring)
| NoControls.

Definition status_eqb (s s' : InterviewStatus) : bool := bool_decide (s = s').

Definition render_controls (c : Screen) : Controls :=
  if status_eqb (status c) starting || status_eqb (status c) processing_answer
     || status_eqb (status c) ai_speaking
  then
    Busy (if status_eqb (status c) ai_speaking then SoundWave else Spinner)
         ((if status_eqb (status c) starting then js "Starting interview..." else [])
          ++ (if status_eqb (status c) processing_answer then js "AI is analyzing..." else [])
          ++ (if status_eqb (status c) ai_speaking then js "Alex is speaking..." else []))
  else if negb (isGeneratingFeedback c) && negb (status_eqb (status c) finished)
  then
    Microphone
      (status_eqb (status c) recording)
      (negb (status_eqb (status c) waiting_for_user)
       && negb (status_eqb (status c) recording))
      (if status_eqb (status c) recording
       then js "Stop Recording" else js "Record Answer")
  else NoControls.

(** The [disabled] attributes of the two buttons under the controls. *)
Definition cancel_disabled (c : Screen) : bool := isGeneratingFeedback c.

Definition end_disabled (c : Screen) : bool :=
  status_eqb (status c) starting || status_eqb (status c) recording
  || status_eqb (status c) ai_speaking || isGeneratingFeedback c.

(** ** FeedbackScreen: the score colour and the Save button *)

Inductive ScoreColor := text_green_400 | text_yellow_400 | text_red_400.

Definition getScoreColor (score : Z) : ScoreColor :=
  if 80 <=? score then text_green_400
  else if 60 <=? score then text_yellow_400
  else text_red_400.

(** The Save button carries [disabled={isSaved}]: a click reaches
    [handleSave] only while the report is not saved. *)
Definition save_click (B : Browser) (f : InterviewFeedback)
    (t : list TranscriptMessage) (clock : Z * Z) (st : FeedbackState)
  : FeedbackState :=
  if isSaved st then st else handleSave B f t clock.1 clock.2 st.

(** ** Vocabulary of the further statements *)

(** How good a colour is. *)
Definition color_rank (c : ScoreColor) : nat :=
  match c with
  | text_red_400 => 0
  | text_yellow_400 => 1
  | text_green_400 => 2
  end.

(** [s] contains [needle] as a run of consecutive code units. *)
Definition substring (needle s : jsstring) : Prop :=
  ∃ before after, s = before ++ needle ++ after.

Definition white_space (s : jsstring) : Prop :=
  Forall (λ ch, is_white_space ch = true) s.

(** Roles of a history that takes turns, a user entry first. *)
Fixpoint takes_turns (next : role) (h : list content) : Prop :=
  match h with
  | [] => True
  | entry :: h' =>
      c_role entry = next
      ∧ takes_turns (match next with User => Model | Model => User end) h'
  end.

(** The shape of the conversation history between two events: none
    before the first question; after it, the opening message first,
    user and model entries in turn, a model entry last. *)
Definition history_shape (c : Screen) : Prop :=
  (turns c = [] ↔ conversationHistory c = [])
  ∧ (conversationHistory c ≠ [] →
     head (conversationHistory c) = Some start_message
     ∧ takes_turns User (conversationHistory c)
     ∧ c_role <$> last (conversationHistory c) = Some Model).

(** A browser that reads back the one-report list it writes for the
    sample feedback. *)
Definition sample_first_report : json :=
  JObj [ (js "id", JStr (js "report-1735689600000"));
         (js "feedback", feedback_json sample_feedback);
         (js "transcript", JArr []);
         (js "savedAt", JStr (js "2025-01-01T00:00:00.000Z")) ].

Definition reading_browser : Browser := {|
  JSON_parse :=
    λ s, if decide (s = js "[1 reports]") then Some (JArr [sample_first_report])
         else if decide (s = js "null") then Some JNull
         else None;
  JSON_stringify := JSON_stringify sample_browser;
  number_toString := number_toString sample_browser;
  toISOString := toISOString sample_browser;
  storage_accepts := λ _ _ _, true |}.

Definition empty_feedback_state : FeedbackState :=
  {| localStorage := ∅; isSaved := false; alerts := 0 |}.

(** A screen with one closed turn and an open one, as it is after the
    first answer. *)
Definition second_turn_screen : Screen := {|
  status := recording;
  turns := [ {| t_id := 100; t_question := js "Tell me about yourself.";
                t_answer := Some (js "I write compilers.");
                t_feedback := Some (js "Good."); t_score := Some 8 |};
             {| t_id := 200; t_question := js "Why this role?";
                t_answer := None; t_feedback := None; t_score := None |} ];
  isGeneratingFeedback := false; finalAnswer := Some (js "For the proofs.");
  conversationHistory :=
    [ start_message; {| c_role := Model; c_text := js "turn" |};
      {| c_role := User; c_text := js "I write compilers." |};
      {| c_role := Model; c_text := js "turn" |} ];
  transcript := js "For the proofs."; recognizing := false; playing := false;
  mounted := true; world := net0; edges := []; reported := [] |}.

#[global] Instance Speaker_eq_dec : EqDecision Speaker.
Proof. solve_decision. Defined.

(** The texts one speaker has in a transcript, in order. *)
Definition texts_of (s : Speaker) (ms : list TranscriptMessage) : list jsstring :=
  m_text <$> filter (λ m, m_speaker m = s) ms.

(** The answer a turn contributes to the transcript, if any. *)
Definition spoken_answer (turn : Turn) : option jsstring :=
  if has_answer turn then t_answer turn else None.

(** The states the application can be in, step by step: what has been
    chosen so far is stored, and nothing else is. *)
Definition app_shape (a : App) : Prop :=
  match interviewState a with
  | welcome => a = app0
  | language_select => a = setInterviewState language_select app0
  | role_select =>
      ∃ l, a = {| interviewState := role_select; selectedLanguage := Some l;
                  selectedRole := None; selectedLevel := None;
                  a_finalTranscript := []; a_feedback := None |}
  | level_select =>
      ∃ l r, a = {| interviewState := level_select; selectedLanguage := Some l;
                    selectedRole := Some r; selectedLevel := None;
                    a_finalTranscript := []; a_feedback := None |}
  | in_progress =>
      ∃ l r v, a = {| interviewState := in_progress; selectedLanguage := Some l;
                      selectedRole := Some r; selectedLevel := Some v;
                      a_finalTranscript := []; a_feedback := None |}
  | feedback =>
      ∃ l r v t f, a = {| interviewState := feedback; selectedLanguage := Some l;
                          selectedRole := Some r; selectedLevel := Some v;
                          a_finalTranscript := t;
                          a_feedback := as_feedback_state f |}
  end.

(** The application after the events of [es], the first event first. *)
Definition app_run (es : list AppEvent) (a : App) : App :=
  foldl (λ a e, app_step e a) a es.

(** ** InterviewScreen: handlers interleaved

    The step functions are [async]: each runs up to its next [await]
    and is resumed when the promise settles, and meanwhile clicks,
    recognition and audio events, other resumed handlers and the effect
    on [finalAnswer] act on the same state.  Here every stretch of code
    between two [await]s is one step.  The outcome of a request made
    through [generateContentWithRetry] is an input of the step that
    resumes the handler.  Of the screen, [world] and [playing] are not
    used: requests are listed in [sent] and the audio sources that were
    started and have not ended are counted in [sounding].

    The system orders the steps less than a browser does: a suspended
    continuation, a due effect and an event may come in any order, and
    the effect reads the state as it is when it runs.  What is proved
    of every state of [running] therefore holds of every schedule;
    the runs that show what does happen are those of [fire_promptly]
    below, where microtasks and due effects come first.  [onCancel]
    unmounts the component and ends the run. *)

(** Who awaits [speakText]. *)
Inductive Caller := FromStart | FromAnswer.

(** A handler suspended at an [await], with what its continuation
    holds. *)
Inductive Task :=
| AwaitStart
| AwaitAnswer (answer : jsstring) (updatedHistory : list content)
| AwaitSpeech (caller : Caller)
| AwaitDecoded (caller : Caller) (decoded : outcome AudioBuffer)
| AwaitSpoken
| AwaitMicrophone
| AwaitFeedback (messages : list TranscriptMessage).

Record Running := {
  screen : Screen;
  tasks : list Task;
  effect_due : bool;
  sounding : nat;
  sent : list request }.

Definition running0 : Running :=
  {| screen := screen0; tasks := []; effect_due := false; sounding := 0;
     sent := [] |}.

Definition on_screen (f : Screen → Screen) (R : Running) : Running :=
  {| screen := f (screen R); tasks := tasks R; effect_due := effect_due R;
     sounding := sounding R; sent := sent R |}.

Definition suspend (t : Task) (R : Running) : Running :=
  {| screen := screen R; tasks := tasks R ++ [t]; effect_due := effect_due R;
     sounding := sounding R; sent := sent R |}.

Definition resumed (i : nat) (R : Running) : Running :=
  {| screen := screen R; tasks := delete i (tasks R); effect_due := effect_due R;
     sounding := sounding R; sent := sent R |}.

Definition send (rq : request) (R : Running) : Running :=
  {| screen := screen R; tasks := tasks R; effect_due := effect_due R;
     sounding := sounding R; sent := sent R ++ [rq] |}.

Definition set_effect_due (b : bool) (R : Running) : Running :=
  {| screen := screen R; tasks := tasks R; effect_due := b;
     sounding := sounding R; sent := sent R |}.

Definition set_sounding (n : nat) (R : Running) : Running :=
  {| screen := screen R; tasks := tasks R; effect_due := effect_due R;
     sounding := n; sent := sent R |}.

Definition run_setStatus (s : InterviewStatus) (R : Running) : Running :=
  on_screen (setStatus s) R.

(** [setTurns] installs a new array: [handleAnswerSubmit], whose
    dependencies are [turns] and [speakText], is a new function after
    it, and the effect that depends on it is due again. *)
Definition run_setTurns (f : list Turn → list Turn) (R : Running) : Running :=
  set_effect_due true (on_screen (setTurns f) R).

(** [setFinalAnswer]: a value equal to the current one changes
    nothing. *)
Definition run_setFinalAnswer (a : option jsstring) (R : Running) : Running :=
  if decide (finalAnswer (screen R) = a) then R
  else set_effect_due true (on_screen (setFinalAnswer a) R).

Section Interleaved.
Context (svc : Services) (P : Props).

(** The caller of [speakText] after its [await speakText(...)]:
    [startInterview] has nothing left to do, [handleAnswerSubmit] has
    its [finally]. *)
Definition spoken (caller : Caller) (R : Running) : Running :=
  match caller with
  | FromStart => R
  | FromAnswer => suspend AwaitSpoken R
  end.

(** [speakText] up to its request. *)
Definition begin_speakText (caller : Caller) (text : jsstring) (R : Running)
  : Running :=
  if truthy text then
    suspend (AwaitSpeech caller)
      (send (TtsRequest text) (run_setStatus ai_speaking R))
  else spoken caller R.

(** [speakText] from the settled request to [await decodeAudioData]. *)
Definition continue_speakText (caller : Caller) (r : outcome response)
    (R : Running) : Running :=
  match r with
  | Rejected _ => spoken caller (run_setStatus waiting_for_user R)
  | Fulfilled response =>
      match r_audio response with
      | None => spoken caller (run_setStatus waiting_for_user R)
      | Some base64Audio =>
          if truthy base64Audio then
            match decode (atob svc) base64Audio with
            | Rejected _ => spoken caller (run_setStatus waiting_for_user R)
            | Fulfilled bytes =>
                suspend
                  (AwaitDecoded caller
                     (decodeAudioData bytes (outputAudioContext svc) 24000 1))
                  R
            end
          else spoken caller (run_setStatus waiting_for_user R)
      end
  end.

(** [speakText] after [await decodeAudioData]: the source is started,
    or the rejection is caught. *)
Definition continue_decoded (caller : Caller) (decoded : outcome AudioBuffer)
    (R : Running) : Running :=
  match decoded with
  | Rejected _ => spoken caller (run_setStatus waiting_for_user R)
  | Fulfilled audioBuffer => spoken caller (set_sounding (S (sounding R)) R)
  end.

(** [startInterview] up to its request, and from the settled
    request. *)
Definition begin_startInterview (R : Running) : Running :=
  suspend AwaitStart
    (send
       (TurnRequest
          (Some (getSystemPrompt svc (languageName svc P) (p_role P) (p_level P)))
          [start_message])
       (run_setStatus processing_answer R)).

Definition continue_startInterview (now : Z) (r : outcome response) (R : Running)
  : Running :=
  match r with
  | Rejected _ => run_setStatus finished R
  | Fulfilled response =>
      match JSON_parse_turn svc (r_text response) with
      | None => run_setStatus finished R
      | Some turnData =>
          let firstQuestion := nextQuestion turnData in
          let R :=
            run_setTurns (λ _, [ {| t_id := now; t_question := firstQuestion;
                                    t_answer := None; t_feedback := None;
                                    t_score := None |} ]) R in
          let R :=
            on_screen
              (setHistory
                 [ start_message;
                   {| c_role := Model; c_text := JSON_stringify_turn svc turnData |} ])
              R in
          begin_speakText FromStart firstQuestion R
      end
  end.

(** [handleAnswerSubmit] up to its request; [turns] is the list of the
    render whose effect calls it. *)
Definition begin_handleAnswerSubmit (answer : jsstring) (R : Running) : Running :=
  if negb (truthy (trim answer)) then run_setStatus waiting_for_user R
  else
    let R := run_setStatus processing_answer R in
    match last (turns (screen R)) with
    | None => R
    | Some lastTurn =>
        let currentTurnId := t_id lastTurn in
        let R :=
          run_setTurns (map (λ t, if t_id t =? currentTurnId
                                  then with_answer answer t else t)) R in
        let updatedHistory :=
          conversationHistory (screen R)
          ++ [ {| c_role := User; c_text := answer |} ] in
        suspend (AwaitAnswer answer updatedHistory)
          (send (TurnRequest None updatedHistory) R)
    end.

(** [handleAnswerSubmit] from the settled request; the [finally] runs
    at once except behind [await speakText(...)]. *)
Definition continue_handleAnswerSubmit (now : Z) (updatedHistory : list content)
    (r : outcome response) (R : Running) : Running :=
  match r with
  | Rejected _ => run_setFinalAnswer None (run_setStatus waiting_for_user R)
  | Fulfilled response =>
      match JSON_parse_turn svc (r_text response) with
      | None => run_setFinalAnswer None (run_setStatus waiting_for_user R)
      | Some turnData =>
          let R := run_setTurns (close_last_turn now turnData) R in
          let R :=
            on_screen
              (setHistory
                 (updatedHistory ++
                    [ {| c_role := Model;
                         c_text := JSON_stringify_turn svc turnData |} ]))
              R in
          if truthy (nextQuestion turnData)
          then begin_speakText FromAnswer (nextQuestion turnData) R
          else run_setFinalAnswer None (run_setStatus finished R)
      end
  end.

(** The effect on [finalAnswer, handleAnswerSubmit]. *)
Definition run_effect (R : Running) : Running :=
  let R := set_effect_due false R in
  match finalAnswer (screen R) with
  | Some answer => if truthy answer then begin_handleAnswerSubmit answer R else R
  | None => R
  end.

(** [handleToggleRecording] up to [getUserMedia], and after it. *)
Definition click_microphone (R : Running) : Running :=
  if negb (SpeechRecognitionAPI svc) then R
  else
    match status (screen R) with
    | recording => R
    | waiting_for_user => suspend AwaitMicrophone R
    | _ => R
    end.

Definition continue_microphone (granted : bool) (R : Running) : Running :=
  if granted then
    let R := run_setStatus recording R in
    if recognizing (screen R) then R else on_screen (setRecognizing true) R
  else R.

(** The recognition callbacks. *)
Definition run_onend (R : Running) : Running :=
  let R := on_screen (setRecognizing false) R in
  if truthy (transcript (screen R))
  then run_setFinalAnswer (Some (transcript (screen R))) R
  else run_setStatus waiting_for_user R.

(** [handleEndInterview] up to its request, and from the settled
    request. *)
Definition click_end (R : Running) : Running :=
  let R := on_screen (setIsGeneratingFeedback true) R in
  let R := run_setStatus finished R in
  let messages := finalTranscript (turns (screen R)) in
  let prompt :=
    getFeedbackPrompt svc messages (languageName svc P) (p_role P) (p_level P) in
  suspend (AwaitFeedback messages) (send (FeedbackRequest prompt) R).

Definition continue_handleEndInterview (messages : list TranscriptMessage)
    (r : outcome response) (R : Running) : Running :=
  let given :=
    match r with
    | Rejected _ => fallbackFeedback
    | Fulfilled response =>
        match JSON_parse_feedback svc (r_text response) with
        | None => fallbackFeedback
        | Some feedbackJson => feedbackJson
        end
    end in
  on_screen (setIsGeneratingFeedback false)
    (on_screen (onInterviewEnd messages given) R).

(** What can happen next. *)
Inductive Step :=
| DoMount
| DoEffect
| DoSettle (i : nat) (r : outcome response) (now : Z)
| DoMicrophone (i : nat) (granted : bool)
| DoContinue (i : nat)
| ClickMicrophone
| ClickEnd
| DoResult (t : jsstring)
| DoError
| DoEnd
| DoAudioEnded.

(** One step, or [None] where it cannot happen: the component is
    mounted once, and gone once [onInterviewEnd] was called; a task is
    resumed by what it waits for; the effect runs when it is due; a
    button is clicked when it is rendered and not disabled; recognition
    and audio events need a session and a sounding source. *)
Definition fire (step : Step) (R : Running) : option Running :=
  match step with
  | DoMount =>
      if mounted (screen R) then None
      else Some (begin_startInterview (on_screen (setMounted true) R))
  | _ =>
      if mounted (screen R) && is_nil (reported (screen R)) then
        match step with
        | DoMount => None
        | DoEffect => if effect_due R then Some (run_effect R) else None
        | DoSettle i r now =>
            match tasks R !! i with
            | Some AwaitStart =>
                Some (continue_startInterview now r (resumed i R))
            | Some (AwaitAnswer answer updatedHistory) =>
                Some (continue_handleAnswerSubmit now updatedHistory r (resumed i R))
            | Some (AwaitSpeech caller) =>
                Some (continue_speakText caller r (resumed i R))
            | Some (AwaitFeedback messages) =>
                Some (continue_handleEndInterview messages r (resumed i R))
            | _ => None
            end
        | DoMicrophone i granted =>
            match tasks R !! i with
            | Some AwaitMicrophone => Some (continue_microphone granted (resumed i R))
            | _ => None
            end
        | DoContinue i =>
            match tasks R !! i with
            | Some (AwaitDecoded caller decoded) =>
                Some (continue_decoded caller decoded (resumed i R))
            | Some AwaitSpoken => Some (run_setFinalAnswer None (resumed i R))
            | _ => None
            end
        | ClickMicrophone =>
            match render_controls (screen R) with
            | Microphone _ false _ => Some (click_microphone R)
            | _ => None
            end
        | ClickEnd =>
            if end_disabled (screen R) then None else Some (click_end R)
        | DoResult t =>
            if recognizing (screen R) then Some (on_screen (setTranscript t) R)
            else None
        | DoError =>
            if recognizing (screen R) then Some (run_setStatus waiting_for_user R)
            else None
        | DoEnd => if recognizing (screen R) then Some (run_onend R) else None
        | DoAudioEnded =>
            match sounding R with
            | O => None
            | S n => Some (set_sounding n (run_setStatus waiting_for_user R))
            end
        end
      else None
  end.

(** The states the component is in at some time. *)
Inductive running : Running → Prop :=
| running_init : running running0
| running_step step R R' :
    running R → fire step R = Some R' → running R'.

(** A run of steps, the first one first. *)
Fixpoint fire_all (steps : list Step) (R : Running) : option Running :=
  match steps with
  | [] => Some R
  | step :: steps =>
      match fire step R with
      | Some R' => fire_all steps R'
      | None => None
      end
  end.

End Interleaved.




(** What a suspended [handleAnswerSubmit] holds as [updatedHistory]:
    a history of the shape above, followed by the answer. *)
Definition pending_history (t : Task) : Prop :=
  match t with
  | AwaitAnswer answer updatedHistory =>
      ∃ h, updatedHistory = h ++ [ {| c_role := User; c_text := answer |} ]
           ∧ head h = Some start_message
           ∧ takes_turns User h
           ∧ c_role <$> last h = Some Model
  | _ => True
  end.

Definition awaits_answer (t : Task) : bool :=
  match t with AwaitAnswer _ _ => true | _ => false end.

(** What every step keeps of the history: its shape on the screen and
    in the suspended handlers, none of which waits for a reply to an
    answer before the first turn is there. *)
Definition history_kept (R : Running) : Prop :=
  history_shape (screen R)
  ∧ Forall pending_history (tasks R)
  ∧ (turns (screen R) = [] → Forall (λ t, awaits_answer t = false) (tasks R)).

(** ** Sample runs of the interleaved system *)

(** Services whose parser reads ["turn"] as a reply with a next
    question and ["last"] as one without. *)
Definition closing_turn_data : TurnData :=
  {| nextQuestion := []; td_feedback := js "Thank you."; td_score := 8 |}.

Definition closing_services : Services := {|
  api := api_answers;
  JSON_parse_turn :=
    λ s, if decide (s = js "turn") then Some sample_turn_data
         else if decide (s = js "last") then Some closing_turn_data
         else None;
  JSON_stringify_turn := λ _, js "turn";
  JSON_parse_feedback :=
    λ s, if decide (s = js "feedback") then Some sample_feedback else None;
  getSystemPrompt := λ _ _ _, js "You are Alex, an interviewer.";
  getFeedbackPrompt := λ _ _ _ _, js "Assess this interview.";
  supported_language_name := λ _, Some (js "English");
  atob := atob_sample;
  outputAudioContext := plain_context;
  SpeechRecognitionAPI := true |}.

Definition turn_reply : outcome response :=
  Fulfilled {| r_text := js "turn"; r_audio := None |}.

Definition last_reply : outcome response :=
  Fulfilled {| r_text := js "last"; r_audio := None |}.

Definition speech_reply : outcome response :=
  Fulfilled {| r_text := []; r_audio := Some (js "AID/fw==") |}.

Definition no_reply : outcome response := Rejected (js "503 unavailable").

(** *** Runs in which nothing is kept waiting

    A continuation behind an [await] on a promise that is already
    settled ([decodeAudioData], [speakText] once it has returned) runs
    as a microtask, before anything else; and a render whose effect is
    due runs it before the next event is handled.  [fire_promptly]
    fires the steps of a run that keeps to this, and no others;
    [rendered] tells that the effect has run since the last other
    step. *)
Definition microtask (t : Task) : bool :=
  match t with
  | AwaitDecoded _ _ | AwaitSpoken => true
  | _ => false
  end.

Fixpoint find_microtask (i : nat) (ts : list Task) : option nat :=
  match ts with
  | [] => None
  | t :: ts => if microtask t then Some i else find_microtask (S i) ts
  end.

Definition comes_next (rendered : bool) (step : Step) (R : Running) : bool :=
  match find_microtask 0 (tasks R) with
  | Some i => match step with DoContinue j => (i =? j)%nat | _ => false end
  | None =>
      if effect_due R && negb rendered
      then match step with DoEffect => true | _ => false end
      else true
  end.

Fixpoint fire_promptly (svc : Services) (P : Props) (rendered : bool)
    (steps : list Step) (R : Running) : option Running :=
  match steps with
  | [] => Some R
  | step :: steps =>
      if comes_next rendered step R then
        match fire svc P step R with
        | Some R' =>
            fire_promptly svc P
              (match step with DoEffect => true | _ => false end) steps R'
        | None => None
        end
      else None
  end.


(** Up to the first question spoken and the microphone clicked
    [clicks] times before [getUserMedia] answers. *)
Definition first_question_steps (clicks : nat) : list Step :=
  [ DoMount; DoSettle 0 turn_reply 100; DoEffect; DoSettle 0 speech_reply 0;
    DoContinue 0; DoAudioEnded ] ++ replicate clicks ClickMicrophone.

(** One answer is recognised and submitted by [runs] runs of the
    effect before any reply. *)
Definition answer_steps (runs : nat) : list Step :=
  [ DoMicrophone 0 true; DoResult (js "I write compilers."); DoEnd ]
  ++ replicate runs DoEffect.


(** One answer and its late replies.  The effect submits the answer
    three times before the first reply and once after it; the speech
    for that reply clears [finalAnswer]; the other replies come while
    the status is ['ai_speaking'] or, after the audio has ended,
    ['waiting_for_user'].  Then two speech requests fail, the
    microphone is double-clicked, a second answer is recognised after
    the status went back to ['waiting_for_user'], the End button is
    clicked while the effect keeps submitting, and the replies to the
    second answer come in after that. *)
Definition late_replies_steps : list Step :=
  first_question_steps 1 ++ answer_steps 3
  ++ [ DoSettle 0 turn_reply 200; DoEffect;
       DoSettle 2 speech_reply 0; DoContinue 3; DoContinue 3; DoEffect;
       DoSettle 0 turn_reply 300; DoEffect;
       DoSettle 0 turn_reply 400; DoEffect;
       DoAudioEnded;
       DoSettle 0 turn_reply 500; DoEffect;
       DoSettle 0 no_reply 0; DoContinue 2;
       ClickMicrophone; ClickMicrophone; DoMicrophone 2 true; DoMicrophone 2 true;
       DoSettle 0 no_reply 0; DoContinue 1;
       DoResult (js "With types."); DoEnd; DoEffect; DoEffect; DoEffect; DoEffect;
       ClickEnd; DoEffect;
       DoSettle 1 last_reply 600; DoEffect;
       DoSettle 1 last_reply 700; DoEffect;
       DoSettle 1 turn_reply 800; DoEffect;
       DoSettle 1 last_reply 900; DoEffect;
       DoSettle 0 no_reply 0; DoContinue 3;
       DoSettle 1 last_reply 1000; DoEffect ].


(** * Properties *)

(** ** The retry wrapper *)

Lemma retry_loop_body api rq attempt w :
  retry_loop api rq attempt w =
  if decide (attempt < MAX_RETRIES)%nat then
    match api (length (calls w)) rq with
    | Fulfilled r => (Fulfilled r, record_call rq w)
    | Rejected e =>
        if is_rate_limit e then
          if decide (MAX_RETRIES ≤ S attempt)%nat
          then (Rejected e, record_call rq w)
          else retry_loop api rq (S attempt)
                 (sleep (backoff_delay (S attempt)) (record_call rq w))
        else (Rejected e, record_call rq w)
    end
  else (Rejected unreachable_error, w).
Proof.
  rewrite retry_loop_equation_1.
  destruct (decide (attempt < MAX_RETRIES)%nat); [|done].
  unfold retry_loop_unfold_clause_1, retry_loop_unfold_clause_1_clause_2.
  destruct (api (length (calls w)) rq) as [r|e]; [done|].
  unfold retry_loop_unfold_clause_1_clause_2_clause_2.
  destruct (is_rate_limit e); [|done].
  unfold retry_loop_unfold_clause_1_clause_2_clause_2_clause_2.
  by destruct (decide (MAX_RETRIES ≤ S attempt)%nat).
Qed.

Lemma after_retries_0 rq attempt w : after_retries rq attempt 0 w = w.
Proof. destruct w; unfold after_retries; simpl. by rewrite !app_nil_r. Qed.

Lemma after_retries_S rq attempt k w :
  after_retries rq attempt (S k) w =
  after_retries rq (S attempt) k
    (sleep (backoff_delay (S attempt)) (record_call rq w)).
Proof.
  unfold after_retries, sleep, record_call; simpl.
  by rewrite <- !app_assoc.
Qed.

Lemma retry_loop_skip api rq k : ∀ attempt w,
  (attempt + k < MAX_RETRIES)%nat →
  rate_limited api rq (length (calls w)) k →
  retry_loop api rq attempt w =
  retry_loop api rq (attempt + k) (after_retries rq attempt k w).
Proof.
  induction k as [|k IH]; intros attempt w Hlt Hrl.
  - by rewrite Nat.add_0_r, after_retries_0.
  - destruct (Hrl 0%nat) as (e & He & Hr); [lia|].
    rewrite Nat.add_0_r in He.
    rewrite retry_loop_body, He, Hr.
    destruct (decide (attempt < MAX_RETRIES)%nat); [|lia].
    destruct (decide (MAX_RETRIES ≤ S attempt)%nat); [lia|].
    rewrite after_retries_S, IH; [f_equal; lia | lia |].
    intros j Hj. destruct (Hrl (S j)) as (e' & He' & Hr'); [lia|].
    exists e'. split; [|done].
    rewrite <- He'. f_equal. simpl. rewrite length_app. simpl. lia.
Qed.

Lemma after_retries_calls rq attempt k w :
  calls (record_call rq (after_retries rq attempt k w)) =
  calls w ++ replicate (S k) rq.
Proof.
  simpl. rewrite <- app_assoc. f_equal.
  change [rq] with (replicate 1 rq). rewrite <- replicate_add.
  by rewrite Nat.add_1_r.
Qed.

Lemma after_retries_length rq attempt k w :
  length (calls (after_retries rq attempt k w)) = (length (calls w) + k)%nat.
Proof. simpl. by rewrite length_app, length_replicate. Qed.

(** C1.  The wrapper returns the response of the first call that is
    fulfilled; an error whose string form contains neither ['429'] nor
    ['RESOURCE_EXHAUSTED'] is rethrown by the call that met it, with no
    call after it; and when every call is rejected with a rate-limit
    error, exactly [MAX_RETRIES] = 3 calls are made and the error of the
    last one is rethrown. *)
Theorem generateContentWithRetry_result api rq w :
  let n0 := length (calls w) in
  let run := generateContentWithRetry api rq w in
  (∀ k r, (k < MAX_RETRIES)%nat → rate_limited api rq n0 k →
          api (n0 + k)%nat rq = Fulfilled r →
          run.1 = Fulfilled r ∧ calls run.2 = calls w ++ replicate (S k) rq)
  ∧ (∀ k e, (k < MAX_RETRIES)%nat → rate_limited api rq n0 k →
            api (n0 + k)%nat rq = Rejected e → is_rate_limit e = false →
            run.1 = Rejected e ∧ calls run.2 = calls w ++ replicate (S k) rq)
  ∧ (∀ e, rate_limited api rq n0 MAX_RETRIES →
          api (n0 + (MAX_RETRIES - 1))%nat rq = Rejected e →
          run.1 = Rejected e ∧ calls run.2 = calls w ++ replicate MAX_RETRIES rq)
  ∧ MAX_RETRIES = 3%nat.
Proof.
  intros n0 run. subst run. unfold generateContentWithRetry.
  split; [|split; [|split; [|done]]].
  - intros k r Hk Hrl Hk'.
    rewrite (retry_loop_skip api rq k) by (done || lia). simpl (0 + k)%nat.
    rewrite retry_loop_body, after_retries_length. fold n0. rewrite Hk'.
    destruct (decide (k < MAX_RETRIES)%nat); [|lia].
    split; [done|]. apply after_retries_calls.
  - intros k e Hk Hrl Hk' Hne.
    rewrite (retry_loop_skip api rq k) by (done || lia). simpl (0 + k)%nat.
    rewrite retry_loop_body, after_retries_length. fold n0. rewrite Hk', Hne.
    destruct (decide (k < MAX_RETRIES)%nat); [|lia].
    split; [done|]. apply after_retries_calls.
  - intros e Hrl He.
    destruct (Hrl (MAX_RETRIES - 1)%nat) as (e' & He' & Hr');
      [unfold MAX_RETRIES; lia|].
    assert (e' = e) by congruence. subst e'.
    rewrite (retry_loop_skip api rq (MAX_RETRIES - 1)).
    + simpl (0 + _)%nat.
      rewrite retry_loop_body, after_retries_length. fold n0. rewrite He, Hr'.
      destruct (decide (MAX_RETRIES - 1 < MAX_RETRIES)%nat);
        [|unfold MAX_RETRIES in *; lia].
      destruct (decide (MAX_RETRIES ≤ S (MAX_RETRIES - 1))%nat);
        [|unfold MAX_RETRIES in *; lia].
      split; [done|]. apply after_retries_calls.
    + unfold MAX_RETRIES; lia.
    + intros j Hj. apply Hrl. lia.
Qed.

Lemma generateContentWithRetry_result_witness :
  ((generateContentWithRetry api_recovers (TtsRequest (js "Hello")) net0).1
   = Fulfilled sample_response
   ∧ calls (generateContentWithRetry api_recovers (TtsRequest (js "Hello")) net0).2
     = replicate 3 (TtsRequest (js "Hello")))
  ∧ ((generateContentWithRetry api_breaks (FeedbackRequest []) net0).1
     = Rejected (js "TypeError: Failed to fetch")
     ∧ calls (generateContentWithRetry api_breaks (FeedbackRequest []) net0).2
       = replicate 2 (FeedbackRequest []))
  ∧ ((generateContentWithRetry api_exhausted (FeedbackRequest []) net0).1
     = Rejected (js "ApiError: 429 call " ++ [2%N])
     ∧ calls (generateContentWithRetry api_exhausted (FeedbackRequest []) net0).2
       = replicate 3 (FeedbackRequest [])).
Proof.
  destruct (generateContentWithRetry_result api_recovers (TtsRequest (js "Hello")) net0)
    as (Hfirst & _).
  destruct (generateContentWithRetry_result api_breaks (FeedbackRequest []) net0)
    as (_ & Hother & _).
  destruct (generateContentWithRetry_result api_exhausted (FeedbackRequest []) net0)
    as (_ & _ & Hall & _).
  split; [|split].
  - apply (Hfirst 2%nat sample_response); [unfold MAX_RETRIES; lia | | reflexivity].
    intros [|[|j]] Hj; [eexists; split; reflexivity..|lia].
  - apply (Hother 1%nat (js "TypeError: Failed to fetch"));
      [unfold MAX_RETRIES; lia | | reflexivity | reflexivity].
    intros [|j] Hj; [eexists; split; reflexivity|lia].
  - apply (Hall (js "ApiError: 429 call " ++ [2%N])); [|reflexivity].
    intros j Hj. eexists. split; [reflexivity|].
    unfold MAX_RETRIES in Hj. destruct j as [|[|[|j]]]; [reflexivity..|lia].
Defined.


Lemma retry_loop_last_call api rq n : ∀ attempt w,
  (MAX_RETRIES - attempt)%nat = n → (attempt < MAX_RETRIES)%nat →
  ∃ k, (attempt + k < MAX_RETRIES)%nat
       ∧ rate_limited api rq (length (calls w)) k
       ∧ (retry_loop api rq attempt w).1 = api (length (calls w) + k)%nat rq
       ∧ (retry_loop api rq attempt w).2
         = record_call rq (after_retries rq attempt k w)
       ∧ ∀ e, api (length (calls w) + k)%nat rq = Rejected e →
              is_rate_limit e = true → S (attempt + k) = MAX_RETRIES.
Proof.
  induction n as [|n IH]; intros attempt w Hn Hlt; [lia|].
  rewrite retry_loop_body.
  destruct (decide (attempt < MAX_RETRIES)%nat); [|lia].
  destruct (api (length (calls w)) rq) as [r|e] eqn:Hcall.
  - exists 0%nat. rewrite !Nat.add_0_r, after_retries_0, Hcall.
    repeat split; [lia | intros j; lia | done].
  - destruct (is_rate_limit e) eqn:Hrl.
    + destruct (decide (MAX_RETRIES ≤ S attempt)%nat).
      * exists 0%nat. rewrite !Nat.add_0_r, after_retries_0, Hcall.
        repeat split; [lia | intros j; lia | intros; lia].
      * destruct (IH (S attempt)
                    (sleep (backoff_delay (S attempt)) (record_call rq w)))
          as (k & Hk & Hrls & Hout & Hnet & Hstop); [lia..|].
        assert (Hlen : length (calls (sleep (backoff_delay (S attempt))
                                        (record_call rq w)))
                       = S (length (calls w))).
        { simpl. rewrite length_app. simpl. lia. }
        rewrite Hlen in Hrls, Hout, Hstop.
        exists (S k). split; [lia|]. split; [|split; [|split]].
        -- intros [|j] Hj.
           ++ rewrite Nat.add_0_r. eauto.
           ++ destruct (Hrls j) as (e' & He' & Hr'); [lia|].
              exists e'. split; [|done]. rewrite <- He'. f_equal. lia.
        -- rewrite Hout. f_equal. lia.
        -- by rewrite after_retries_S.
        -- intros e' He' Hr'.
           rewrite <- (Hstop e'); [lia | | done].
           rewrite <- He'. f_equal. lia.
    + exists 0%nat. rewrite !Nat.add_0_r, after_retries_0, Hcall.
      repeat split; [lia | intros j; lia | congruence].
Qed.

(** C2.  The wrapper sleeps once after each rate-limited attempt that
    leaves an attempt to make, and at no other time: the delay before
    the k-th retry is [INITIAL_DELAY_MS * 2^(k-1)] milliseconds, that is
    1000 and then 2000; it retries as long as the error is a rate limit
    and never makes more than [MAX_RETRIES] = 3 attempts. *)
Theorem generateContentWithRetry_backoff api rq w :
  let run := generateContentWithRetry api rq w in
  ∃ retries : nat,
    (∀ k, (k < retries)%nat →
          (∃ e, api (length (calls w) + k)%nat rq = Rejected e
                ∧ is_rate_limit e = true)
          ∧ sleeps run.2 !! (length (sleeps w) + k)%nat
            = Some (INITIAL_DELAY_MS * 2 ^ Z.of_nat k))
    ∧ (∀ e, api (length (calls w) + retries)%nat rq = Rejected e →
            is_rate_limit e = true → S retries = MAX_RETRIES)
    ∧ sleeps run.2
      = sleeps w ++ ((λ k : nat, INITIAL_DELAY_MS * 2 ^ (Z.of_nat k - 1)) <$> seq 1 retries)
    ∧ calls run.2 = calls w ++ replicate (S retries) rq
    ∧ (S retries ≤ MAX_RETRIES)%nat
    ∧ MAX_RETRIES = 3%nat
    ∧ INITIAL_DELAY_MS * 2 ^ (1 - 1) = 1000
    ∧ INITIAL_DELAY_MS * 2 ^ (2 - 1) = 2000.
Proof.
  intros run. subst run. unfold generateContentWithRetry.
  destruct (retry_loop_last_call api rq MAX_RETRIES 0%nat w)
    as (k & Hk & Hrl & _ & Hnet & Hstop); [done | unfold MAX_RETRIES; lia |].
  exists k. rewrite Hnet.
  split; [|split; [exact Hstop|]].
  - intros j Hj. split; [by apply Hrl|].
    simpl. rewrite lookup_app_r by lia.
    replace (length (sleeps w) + j - length (sleeps w))%nat with j by lia.
    rewrite list_lookup_fmap, lookup_seq_lt by done. simpl.
    unfold backoff_delay. do 3 f_equal. lia.
  - split; [done|]. split; [apply after_retries_calls|].
    repeat split; lia.
Qed.

Lemma generateContentWithRetry_backoff_witness :
  sleeps (generateContentWithRetry api_exhausted (TtsRequest []) net0).2
  = [1000; 2000]
  ∧ sleeps (generateContentWithRetry api_breaks (TtsRequest []) net0).2 = [1000].
Proof.
  split.
  - destruct (generateContentWithRetry_backoff api_exhausted (TtsRequest []) net0)
      as (k & _ & Hstop & -> & _).
    assert (Hk : S k = MAX_RETRIES)
      by (apply (Hstop (js "ApiError: 429 call " ++ [N.of_nat k])); reflexivity).
    injection Hk as ->. reflexivity.
  - destruct (generateContentWithRetry_backoff api_breaks (TtsRequest []) net0)
      as (k & Hslept & Hstop & -> & _).
    destruct k as [|[|k]].
    + specialize (Hstop (js "ApiError: RESOURCE_EXHAUSTED") eq_refl eq_refl).
      discriminate Hstop.
    + reflexivity.
    + destruct (Hslept 1%nat) as [(e & He & Hr) _]; [lia|].
      injection He as <-. vm_compute in Hr. discriminate Hr.
Defined.

(** When every call is rate-limited the two delays are both slept. *)
Example backoff_exhausted :
  sleeps (generateContentWithRetry api_exhausted (TtsRequest []) net0).2
  = [1000; 2000].
Proof. reflexivity. Qed.

(** ** The audio decoder *)

Section Loops.
Context {A : Type}.

(** A counting loop that stores [g i] at index [i]. *)
Lemma fill_loop_lookup (g : nat → A) n : ∀ (l : list A) a j,
  foldl (λ acc i, <[i := g i]> acc) l (seq a n) !! j
  = if decide ((a ≤ j < a + n)%nat ∧ (j < length l)%nat)
    then Some (g j) else l !! j.
Proof.
  induction n as [|n IH]; intros l a j; simpl.
  - case_decide; [lia|done].
  - rewrite IH, length_insert.
    destruct (decide (j = a)) as [->|Hne].
    + case_decide; case_decide; try lia.
      * rewrite list_lookup_insert_eq; [done|lia].
      * rewrite list_insert_ge; [done|lia].
    + rewrite list_lookup_insert_ne by done.
      case_decide; case_decide; (done || lia).
Qed.

Lemma fill_loop_length (g : nat → A) n : ∀ (l : list A) a,
  length (foldl (λ acc i, <[i := g i]> acc) l (seq a n)) = length l.
Proof.
  induction n as [|n IH]; intros l a; simpl; [done|].
  by rewrite IH, length_insert.
Qed.

(** A counting loop that replaces the element at index [i] by
    [h i] of it. *)
Lemma update_loop_lookup (h : nat → A → A) n : ∀ (l : list A) a j,
  foldl (λ acc i, match acc !! i with
                  | None => acc
                  | Some x => <[i := h i x]> acc
                  end) l (seq a n) !! j
  = if decide (a ≤ j < a + n)%nat then h j <$> l !! j else l !! j.
Proof.
  induction n as [|n IH]; intros l a j; simpl.
  - case_decide; [lia|done].
  - rewrite IH.
    destruct (l !! a) as [x|] eqn:Hx.
    + destruct (decide (j = a)) as [->|Hne].
      * rewrite list_lookup_insert_eq by (by eapply lookup_lt_Some).
        rewrite Hx. case_decide; case_decide; (done || lia).
      * rewrite list_lookup_insert_ne by done.
        case_decide; case_decide; (done || lia).
    + destruct (decide (j = a)) as [->|Hne].
      * rewrite Hx. case_decide; case_decide; (done || lia).
      * case_decide; case_decide; (done || lia).
Qed.

Lemma pair_induction (R : list A → Prop) :
  R [] → (∀ x, R [x]) → (∀ x y l, R l → R (x :: y :: l)) → ∀ l, R l.
Proof.
  intros H0 H1 H2.
  assert (Hboth : ∀ l, R l ∧ ∀ x, R (x :: l)).
  { induction l as [|y l [IHl IHl']]; [by split|].
    split; [apply IHl'|]. intros x. by apply H2. }
  intros l. apply Hboth.
Qed.
End Loops.

Lemma decode_binary_lookup binaryString i :
  decode_binary binaryString !! i
  = (λ c, (c mod 256)%N) <$> charCodeAt binaryString i.
Proof.
  unfold decode_binary, charCodeAt.
  rewrite (fill_loop_lookup (λ i, to_uint8 (binaryString !! i))).
  rewrite length_replicate. case_decide as Hi.
  - destruct (lookup_lt_is_Some_2 binaryString i) as [c Hc]; [lia|].
    by rewrite Hc.
  - rewrite (lookup_ge_None_2 (replicate _ _)) by (rewrite length_replicate; lia).
    by rewrite (lookup_ge_None_2 binaryString) by lia.
Qed.

Lemma decode_binary_length binaryString :
  length (decode_binary binaryString) = length binaryString.
Proof.
  unfold decode_binary.
  by rewrite (fill_loop_length (λ i, to_uint8 (charCodeAt binaryString i))),
    length_replicate.
Qed.

Lemma to_int16_range x : -32768 ≤ to_int16 x < 32768.
Proof.
  unfold to_int16. pose proof (Z.mod_pos_bound x 65536 ltac:(lia)).
  destruct (Z.ltb_spec (x mod 65536) 32768); lia.
Qed.

Lemma int16_view_length data : length (int16_view data) = (length data / 2)%nat.
Proof.
  induction data as [| x | x y l IH] using pair_induction; [done..|].
  simpl int16_view. simpl length. rewrite IH.
  change (S (S (length l))) with (1 * 2 + length l)%nat.
  by rewrite Nat.div_add_l.
Qed.

Lemma int16_view_lookup data : ∀ k lo hi,
  data !! (2 * k)%nat = Some lo → data !! (2 * k + 1)%nat = Some hi →
  int16_view data !! k = Some (to_int16 (Z.of_N lo + 256 * Z.of_N hi)).
Proof.
  induction data as [| x | x y l IH] using pair_induction;
    intros k lo hi Hlo Hhi.
  - done.
  - destruct k; simpl in *; [done|].
    rewrite Nat.add_succ_r in Hlo. done.
  - destruct k as [|k].
    + simpl in *. congruence.
    + simpl int16_view. simpl. apply IH.
      * replace (2 * S k)%nat with (S (S (2 * k))) in Hlo by lia. done.
      * replace (2 * S k + 1)%nat with (S (S (2 * k + 1))) in Hhi by lia. done.
Qed.

Lemma update_loop_length {A} (h : nat → A → A) n : ∀ (l : list A) a,
  length (foldl (λ acc i, match acc !! i with
                          | None => acc
                          | Some x => <[i := h i x]> acc
                          end) l (seq a n)) = length l.
Proof.
  induction n as [|n IH]; intros l a; simpl; [done|].
  rewrite IH. destruct (l !! a); [apply length_insert|done].
Qed.

Lemma iterations_below_exact d frames :
  (0 < d)%nat → iterations_below (d * frames) d = frames.
Proof.
  intros Hd. unfold iterations_below.
  replace (d * frames + d - 1)%nat with (frames * d + (d - 1))%nat by lia.
  rewrite Nat.div_add_l by lia.
  rewrite Nat.div_small by lia. lia.
Qed.

Lemma decode_bytes atob base64 binaryString :
  atob base64 = Some binaryString →
  Forall (λ c, c < 256)%N binaryString →
  ∃ bytes, decode atob base64 = Fulfilled bytes
           ∧ length bytes = length binaryString
           ∧ ∀ i c, charCodeAt binaryString i = Some c → bytes !! i = Some c.
Proof.
  intros Hatob Hbin. unfold decode. rewrite Hatob.
  eexists. split; [done|]. split; [apply decode_binary_length|].
  intros i c Hc. rewrite decode_binary_lookup, Hc. simpl. f_equal.
  apply N.mod_small.
  by apply (Forall_lookup_1 _ _ _ _ Hbin Hc).
Qed.

Lemma decodeAudioData_samples data ctx sampleRate numChannels frames :
  (0 < numChannels)%nat →
  length data = (2 * numChannels * frames)%nat →
  can_create ctx numChannels frames sampleRate = true →
  ∃ buffer,
    decodeAudioData data ctx sampleRate numChannels = Fulfilled buffer
    ∧ frames = (length data / 2 / numChannels)%nat
    ∧ length buffer = numChannels
    ∧ (∀ channelData, channelData ∈ buffer → length channelData = frames)
    ∧ ∀ c i, (c < numChannels)%nat → (i < frames)%nat →
        ∃ lo hi v,
          data !! (2 * (i * numChannels + c))%nat = Some lo
          ∧ data !! (2 * (i * numChannels + c) + 1)%nat = Some hi
          ∧ v = to_int16 (Z.of_N lo + 256 * Z.of_N hi)
          ∧ int16_view data !! (i * numChannels + c)%nat = Some v
          ∧ buffer !! c ≫= (.!! i) = Some (Num (v # 32768))
          ∧ (-1 <= v # 32768)%Q ∧ (v # 32768 < 1)%Q.
Proof.
  intros Hnc Hlen Hcan.
  assert (Hlen16 : length (int16_view data) = (numChannels * frames)%nat).
  { rewrite int16_view_length, Hlen.
    replace (2 * numChannels * frames)%nat with (numChannels * frames * 2)%nat by lia.
    by rewrite Nat.div_mul. }
  assert (Hframes : (length (int16_view data) / numChannels)%nat = frames).
  { rewrite Hlen16, Nat.mul_comm. apply Nat.div_mul. lia. }
  unfold decodeAudioData.
  replace (Nat.odd (length data)) with false; last first.
  { rewrite Hlen, <- Nat.mul_assoc. symmetry.
    rewrite <- Nat.negb_even, Nat.even_mul. done. }
  rewrite Hframes. unfold createBuffer. rewrite Hcan.
  rewrite Hlen16, iterations_below_exact by done.
  set (fill := λ (channel : nat) (channelData : list f32),
         foldl (λ channelData i,
                  <[i := pcm_sample (int16_view data) (i * numChannels + channel)]>
                    channelData) channelData (seq 0 frames)).
  eexists. split; [reflexivity|].
  split; [by rewrite <- int16_view_length|].
  split; [by rewrite (update_loop_length fill), length_replicate|].
  assert (Hchannel : ∀ c channelData,
    foldl (λ buffer channel,
             match buffer !! channel with
             | None => buffer
             | Some channelData => <[channel := fill channel channelData]> buffer
             end) (replicate numChannels (replicate frames (Num 0)))
          (seq 0 numChannels) !! c = Some channelData →
    channelData = fill c (replicate frames (Num 0))).
  { intros c channelData. rewrite (update_loop_lookup fill).
    case_decide as Hc.
    - rewrite lookup_replicate_2 by lia. simpl. congruence.
    - intros Hz%lookup_replicate_1. lia. }
  split.
  - intros channelData [c Hc]%list_elem_of_lookup.
    rewrite (Hchannel _ _ Hc). unfold fill.
    by rewrite (fill_loop_length
                  (λ i, pcm_sample (int16_view data) (i * numChannels + c))),
      length_replicate.
  - intros c i Hc Hi.
    assert (Hk : (2 * (i * numChannels + c) + 1 < length data)%nat) by nia.
    destruct (lookup_lt_is_Some_2 data (2 * (i * numChannels + c))) as [lo Hlo];
      [lia|].
    destruct (lookup_lt_is_Some_2 data (2 * (i * numChannels + c) + 1)) as [hi Hhi];
      [lia|].
    pose proof (int16_view_lookup data _ lo hi Hlo Hhi) as Hv.
    pose proof (to_int16_range (Z.of_N lo + 256 * Z.of_N hi)) as Hr.
    set (v := to_int16 (Z.of_N lo + 256 * Z.of_N hi)) in *.
    exists lo, hi, v. split; [done|]. split; [done|]. split; [done|].
    split; [done|]. split.
    + rewrite (update_loop_lookup fill).
      case_decide; [|lia].
      rewrite lookup_replicate_2 by lia. simpl. unfold fill.
      rewrite (fill_loop_lookup
                 (λ i, pcm_sample (int16_view data) (i * numChannels + c))).
      rewrite length_replicate. case_decide; [|lia].
      unfold pcm_sample. by rewrite Hv.
    + unfold Qle, Qlt. simpl. lia.
Qed.

(** C5.  A payload whose length is a multiple of [2 * numChannels] is
    read as interleaved signed 16-bit PCM, low byte first: the buffer
    has [numChannels] channels of [(length / 2) / numChannels] frames,
    and frame [i] of channel [c] is [dataInt16[i * numChannels + c] /
    32768], a number in [-1, 1).  And [decode] returns, element by
    element, the character codes of the string [atob] returns. *)
Theorem audio_decoding atob base64 binaryString data ctx sampleRate numChannels frames :
  (atob base64 = Some binaryString →
   Forall (λ c, c < 256)%N binaryString →
   ∃ bytes, decode atob base64 = Fulfilled bytes
            ∧ length bytes = length binaryString
            ∧ ∀ i c, charCodeAt binaryString i = Some c → bytes !! i = Some c)
  ∧ ((0 < numChannels)%nat →
     length data = (2 * numChannels * frames)%nat →
     can_create ctx numChannels frames sampleRate = true →
     ∃ buffer,
       decodeAudioData data ctx sampleRate numChannels = Fulfilled buffer
       ∧ frames = (length data / 2 / numChannels)%nat
       ∧ length buffer = numChannels
       ∧ (∀ channelData, channelData ∈ buffer → length channelData = frames)
       ∧ ∀ c i, (c < numChannels)%nat → (i < frames)%nat →
           ∃ lo hi v,
             data !! (2 * (i * numChannels + c))%nat = Some lo
             ∧ data !! (2 * (i * numChannels + c) + 1)%nat = Some hi
             ∧ v = to_int16 (Z.of_N lo + 256 * Z.of_N hi)
             ∧ int16_view data !! (i * numChannels + c)%nat = Some v
             ∧ buffer !! c ≫= (.!! i) = Some (Num (v # 32768))
             ∧ (-1 <= v # 32768)%Q ∧ (v # 32768 < 1)%Q).
Proof.
  split.
  - apply decode_bytes.
  - apply decodeAudioData_samples.
Qed.

Lemma audio_decoding_witness :
  (∃ bytes, decode atob_sample (js "AID/fw==") = Fulfilled bytes
            ∧ length bytes = 4%nat
            ∧ bytes !! 2%nat = Some 255%N)
  ∧ (∃ buffer,
       decodeAudioData [0; 128; 255; 127]%N plain_context 24000 1 = Fulfilled buffer
       ∧ length buffer = 1%nat
       ∧ buffer !! 0%nat ≫= (.!! 1%nat) = Some (Num (32767 # 32768))).
Proof.
  destruct (audio_decoding atob_sample (js "AID/fw==") [0; 128; 255; 127]%N
              [0; 128; 255; 127]%N plain_context 24000 1 2) as [Hdecode Hpcm].
  split.
  - destruct Hdecode as (bytes & Hbytes & Hlen & Hcodes);
      [reflexivity | repeat constructor |].
    exists bytes. split; [exact Hbytes|]. split; [exact Hlen|].
    apply Hcodes. reflexivity.
  - destruct Hpcm as (buffer & Hbuffer & _ & Hlen & _ & Hsamples);
      [lia | reflexivity | reflexivity |].
    exists buffer. split; [exact Hbuffer|]. split; [exact Hlen|].
    destruct (Hsamples 0%nat 1%nat) as (lo & hi & v & Hlo & Hhi & Hv & _ & Hs & _);
      [lia | lia |].
    simpl in Hlo, Hhi. injection Hlo as <-. injection Hhi as <-.
    rewrite Hs, Hv. reflexivity.
Defined.

(** A trailing partial frame is not stored: five samples on two
    channels give two frames. *)
Example decodeAudioData_partial_frame :
  decodeAudioData [0; 128; 255; 127; 1; 0; 255; 255; 3; 3]%N plain_context 24000 2
  = Fulfilled [ [Num (-32768 # 32768); Num (1 # 32768)];
                [Num (32767 # 32768); Num (-1 # 32768)] ].
Proof. reflexivity. Qed.

(** ** The transcript handed to the feedback request *)

Lemma finalTranscript_from acc turns :
  foldl (λ acc turn,
           let acc := acc ++ [ai_message turn] in
           match t_answer turn with
           | Some answer =>
               if truthy answer then acc ++ [user_message turn answer] else acc
           | None => acc
           end) acc turns
  = acc ++ concat (turn_messages <$> turns).
Proof.
  revert acc. induction turns as [|turn turns IH]; intros acc; simpl.
  - by rewrite app_nil_r.
  - rewrite IH. unfold turn_messages, has_answer, ai_message, user_message.
    destruct (t_answer turn) as [answer|]; [destruct (truthy answer)|];
      simpl; by rewrite <- ?app_assoc.
Qed.

(** C6.  The transcript built by [handleEndInterview] is, turn by turn
    and in order, the interviewer's message with the question followed
    by the user's message with the answer exactly when the turn has an
    answer ([turn.answer] is a non-empty string); nothing else is in
    it. *)
Theorem finalTranscript_messages (turns : list Turn) :
  finalTranscript turns = concat (turn_messages <$> turns)
  ∧ ∀ turn, turn ∈ turns →
      ∃ rest,
        turn_messages turn
        = {| m_id := t_id turn; m_speaker := ai; m_text := t_question turn |} :: rest
        ∧ ((has_answer turn = true
            ∧ ∃ answer, t_answer turn = Some answer
                        ∧ rest = [ {| m_id := t_id turn + 1; m_speaker := user;
                                      m_text := answer |} ])
           ∨ (has_answer turn = false ∧ rest = [])).
Proof.
  split.
  - unfold finalTranscript. by rewrite finalTranscript_from.
  - intros turn _. unfold turn_messages.
    destruct (has_answer turn) eqn:Hans.
    + unfold has_answer in Hans.
      destruct (t_answer turn) as [answer|]; [|done].
      eexists. split; [done|]. left. eauto.
    + destruct (t_answer turn); eexists; (split; [done|]); by right.
Qed.

Lemma finalTranscript_messages_witness :
  finalTranscript sample_turns
  = [ {| m_id := 100; m_speaker := ai; m_text := js "Tell me about yourself." |};
      {| m_id := 101; m_speaker := user; m_text := js "I write compilers." |};
      {| m_id := 200; m_speaker := ai; m_text := js "Why this role?" |} ].
Proof.
  destruct (finalTranscript_messages sample_turns) as [Heq _].
  rewrite Heq. reflexivity.
Defined.

(** ** A blank answer *)

Lemma trim_start_blank answer :
  Forall (λ ch, is_white_space ch = true) answer → trim_start answer = [].
Proof. induction 1 as [|ch answer Hch _ IH]; simpl; [done|]. by rewrite Hch. Qed.

Lemma trim_blank answer :
  Forall (λ ch, is_white_space ch = true) answer → trim answer = [].
Proof. intros H. unfold trim. by rewrite trim_start_blank. Qed.

(** C8.  On an answer that is empty or all white space
    [handleAnswerSubmit] sets the status to ['waiting_for_user'] and
    does nothing else: the turns, the conversation history and the
    record of calls to the endpoint are as they were. *)
Theorem handleAnswerSubmit_blank svc now answer (c : Screen) :
  Forall (λ ch, is_white_space ch = true) answer →
  let c' := handleAnswerSubmit svc now answer c in
  status c' = waiting_for_user
  ∧ turns c' = turns c
  ∧ conversationHistory c' = conversationHistory c
  ∧ calls (world c') = calls (world c)
  ∧ c' = setStatus waiting_for_user c.
Proof.
  intros Hblank c'. subst c'. unfold handleAnswerSubmit.
  by rewrite (trim_blank _ Hblank).
Qed.

Lemma handleAnswerSubmit_blank_witness :
  handleAnswerSubmit (sample_services api_answers) 0 [32; 9; 160]%N sample_screen
  = setStatus waiting_for_user sample_screen.
Proof.
  apply (handleAnswerSubmit_blank (sample_services api_answers) 0 [32; 9; 160]%N
           sample_screen).
  repeat constructor.
Defined.

(** An answer with text in it does reach the endpoint. *)
Example handleAnswerSubmit_answer :
  let c := handleAnswerSubmit (sample_services api_answers) 300
             (js " I write compilers. ") sample_screen in
  length (calls (world c)) = 2%nat
  ∧ (t_answer <$> turns c) = [Some (js " I write compilers. "); None]
  ∧ status c = ai_speaking ∧ playing c = true.
Proof. vm_compute. repeat split. Qed.

(** ** The end of the interview *)

(** C9.  Every run of [handleEndInterview] calls [onInterviewEnd]
    exactly once, with the transcript assembled from the turns: the
    feedback is the parsed reply when the request is fulfilled and its
    text parses, and otherwise the fallback, whose score is 0 and whose
    three lists each hold one non-empty placeholder message. *)
Theorem handleEndInterview_reports svc P (c : Screen) :
  let transcript := finalTranscript (turns c) in
  let prompt :=
    getFeedbackPrompt svc transcript (languageName svc P) (p_role P) (p_level P) in
  let reply :=
    (generateContentWithRetry (api svc) (FeedbackRequest prompt) (world c)).1 in
  let given :=
    match reply with
    | Fulfilled response =>
        match JSON_parse_feedback svc (r_text response) with
        | Some feedbackJson => feedbackJson
        | None => fallbackFeedback
        end
    | Rejected _ => fallbackFeedback
    end in
  reported (handleEndInterview svc P c) = reported c ++ [(transcript, given)]
  ∧ overallScore fallbackFeedback = 0
  ∧ (∃ m, strengths fallbackFeedback = [m] ∧ m ≠ [])
  ∧ (∃ m, areasForImprovement fallbackFeedback = [m] ∧ m ≠ [])
  ∧ (∃ m, actionableTips fallbackFeedback = [m] ∧ m ≠ []).
Proof.
  intros transcript prompt reply given.
  split; [|split; [done|repeat split; eexists; (split; [reflexivity|done])]].
  unfold handleEndInterview, request_with_retry. simpl turns. simpl world.
  fold transcript. fold prompt.
  subst given reply.
  destruct (generateContentWithRetry (api svc) (FeedbackRequest prompt) (world c))
    as [[response|e] w]; simpl; [|done].
  by destruct (JSON_parse_feedback svc (r_text response)).
Qed.

Example handleEndInterview_fulfilled :
  reported (handleEndInterview (sample_services api_answers) sample_props sample_screen)
  = [(finalTranscript (turns sample_screen), sample_feedback)].
Proof. reflexivity. Qed.

Example handleEndInterview_rejected :
  reported (handleEndInterview (sample_services api_down) sample_props sample_screen)
  = [(finalTranscript (turns sample_screen), fallbackFeedback)].
Proof. reflexivity. Qed.

(** ** The application *)

Lemma app_step_selections e a : selections_made a → selections_made (app_step e a).
Proof.
  unfold app_step, renderContent, selections_made.
  destruct a as [s l r v t f]; simpl.
  destruct s; simpl.
  - destruct e; simpl; done.
  - destruct e; simpl; eauto.
  - destruct e; simpl; eauto.
  - destruct e; simpl; intros [? ?]; eauto.
  - intros ([l' ->] & [r' ->] & [v' ->]). destruct e; simpl; eauto.
  - destruct f as [f|]; [destruct (feedback_truthy f)|]; destruct e; simpl; done.
Qed.

Lemma app_reachable_selections a : app_reachable a → selections_made a.
Proof.
  induction 1 as [|e a _ IH]; [done|]. by apply app_step_selections.
Qed.

(** C7.  Each selection handler stores the value chosen and moves to
    the step that follows the one it is offered in; a selection event
    never moves the application anywhere else; whenever the state is
    ['in-progress'] a language, a role and a level are selected; the
    end of the interview stores the transcript and the feedback and
    moves from ['in-progress'] to ['feedback'], which is entered in no
    other way; and every step of the application stays, moves to the
    next step of the order, or goes back to ['welcome'] by Cancel or
    Restart. *)
Theorem app_selection_order (a : App) :
  app_reachable a →
  (interviewState (handleGetStarted a) = language_select
   ∧ (∀ languageCode,
        selectedLanguage (handleLanguageSelect languageCode a) = Some languageCode
        ∧ interviewState (handleLanguageSelect languageCode a) = role_select)
   ∧ (∀ r, selectedRole (handleRoleSelect r a) = Some r
           ∧ interviewState (handleRoleSelect r a) = level_select)
   ∧ (∀ level, selectedLevel (handleLevelSelect level a) = Some level
               ∧ interviewState (handleLevelSelect level a) = in_progress))
  ∧ (∀ e, is_selection e = true →
          app_step e a = a
          ∨ (offers (renderContent a).1 e = true
             ∧ app_step e a = app_handle e a
             ∧ next_step (interviewState a) = Some (interviewState (app_step e a))))
  ∧ (interviewState a = in_progress →
     is_Some (selectedLanguage a) ∧ is_Some (selectedRole a)
     ∧ is_Some (selectedLevel a))
  ∧ (∀ e, interviewState (app_step e a) = in_progress →
          interviewState a = in_progress
          ∨ (interviewState a = level_select ∧ ∃ level, e = SelectLevel level))
  ∧ (∀ t f, interviewState (handleInterviewEnd t f a) = feedback
            ∧ a_finalTranscript (handleInterviewEnd t f a) = t
            ∧ a_feedback (handleInterviewEnd t f a) = as_feedback_state f
            ∧ selectedLanguage (handleInterviewEnd t f a) = selectedLanguage a
            ∧ selectedRole (handleInterviewEnd t f a) = selectedRole a
            ∧ selectedLevel (handleInterviewEnd t f a) = selectedLevel a)
  ∧ (∀ t f, interviewState a = in_progress →
            app_step (InterviewEnd t f) a = handleInterviewEnd t f a
            ∧ next_step (interviewState a)
              = Some (interviewState (app_step (InterviewEnd t f) a)))
  ∧ (∀ e, interviewState (app_step e a) = feedback →
          interviewState a = feedback
          ∨ (interviewState a = in_progress ∧ ∃ t f, e = InterviewEnd t f))
  ∧ (∀ e, interviewState (app_step e a) = interviewState a
          ∨ next_step (interviewState a) = Some (interviewState (app_step e a))
          ∨ (interviewState (app_step e a) = welcome
             ∧ (e = Cancel ∨ e = Restart))).
Proof.
  intros Hreach. pose proof (app_reachable_selections a Hreach) as Hsel.
  split; [by repeat split|].
  unfold selections_made in Hsel.
  split; [|split; [|split; [|split; [by repeat split|split; [|split]]]]].
  - intros e He. unfold app_step, renderContent.
    destruct a as [s l r v t f]; simpl in *.
    destruct s; simpl.
    + destruct e; simpl in *; (by left) || (by right).
    + destruct e; simpl in *; (by left) || (by right).
    + destruct e; simpl in *; (by left) || (by right).
    + destruct e; simpl in *; (by left) || (by right).
    + destruct Hsel as ([l' ->] & [r' ->] & [v' ->]).
      destruct e; simpl in *; (by left) || done.
    + destruct f as [f|]; [destruct (feedback_truthy f)|];
        destruct e; simpl in *; (by left) || done.
  - intros Hs. by rewrite Hs in Hsel.
  - intros e. unfold app_step, renderContent.
    destruct a as [s l r v t f]; simpl in *.
    destruct s; simpl.
    + destruct e; simpl; done.
    + destruct e; simpl; done.
    + destruct e; simpl; done.
    + destruct e; simpl; try done. intros _. right. eauto.
    + by left.
    + destruct f as [f|]; [destruct (feedback_truthy f)|];
        destruct e; simpl; done.
  - intros t' f' Hs. unfold app_step, renderContent.
    destruct a as [s l r v t f]; simpl in *. subst s.
    by destruct Hsel as ([l' ->] & [r' ->] & [v' ->]).
  - intros e. unfold app_step, renderContent.
    destruct a as [s l r v t f]; simpl in *.
    destruct s; simpl.
    + destruct e; simpl; done.
    + destruct e; simpl; done.
    + destruct e; simpl; done.
    + destruct e; simpl; done.
    + destruct Hsel as ([l' ->] & [r' ->] & [v' ->]).
      destruct e; simpl; try done. intros _. right. eauto.
    + by left.
  - intros e. unfold app_step, renderContent.
    destruct a as [s l r v t f]; simpl in *.
    destruct s; simpl.
    + destruct e; simpl; auto.
    + destruct e; simpl; auto.
    + destruct e; simpl; auto.
    + destruct e; simpl; auto.
    + destruct Hsel as ([l' ->] & [r' ->] & [v' ->]).
      destruct e; simpl; auto.
    + destruct f as [f|]; [destruct (feedback_truthy f)|];
        destruct e; simpl; auto.
Qed.

Lemma app_selection_order_witness :
  (interviewState app_selected = in_progress
   ∧ is_Some (selectedLanguage app_selected)
   ∧ is_Some (selectedRole app_selected)
   ∧ is_Some (selectedLevel app_selected))
  ∧ interviewState
      (app_step (InterviewEnd [] (FeedbackRecord sample_feedback)) app_selected)
    = feedback
  ∧ a_feedback
      (app_step (InterviewEnd [] (FeedbackRecord sample_feedback)) app_selected)
    = Some (FeedbackRecord sample_feedback).
Proof.
  assert (Hreach : app_reachable app_selected)
    by (repeat apply app_reachable_step; apply app_reachable_init).
  destruct (app_selection_order app_selected Hreach)
    as (_ & _ & Hsel & _ & Hend & Hstep & _).
  split; [split; [reflexivity|]; apply Hsel; reflexivity|].
  destruct (Hstep [] (FeedbackRecord sample_feedback)) as [-> _]; [reflexivity|].
  destruct (Hend [] (FeedbackRecord sample_feedback)) as (-> & _ & -> & _).
  split; reflexivity.
Defined.

(** C10.  [handleRestart] puts the application back in its initial
    state, whatever state it is called in: no language, role, level or
    feedback, an empty transcript, and the state ['welcome']. *)
Theorem handleRestart_resets (a : App) :
  handleRestart a = app0
  ∧ selectedLanguage (handleRestart a) = None
  ∧ selectedRole (handleRestart a) = None
  ∧ selectedLevel (handleRestart a) = None
  ∧ a_feedback (handleRestart a) = None
  ∧ a_finalTranscript (handleRestart a) = []
  ∧ interviewState (handleRestart a) = welcome.
Proof. by repeat split. Qed.

(** ** Saving a report *)

(** C4.  When the stored value reads as a list of reports and
    [handleSave] succeeds (its [catch] does not run), the value stored
    under ['ai-interview-reports'] is the serialization of that list
    with exactly one report added: every report stored before is still
    there, unchanged and in the same relative order, and the new report
    holds the feedback, the transcript and the time of saving.  The new
    report is put first.  No other key is touched. *)
Theorem handleSave_extends B f t now now' (st : FeedbackState) (existing : list json) :
  existingReports B st = Some (JArr existing) →
  alerts (handleSave B f t now now' st) = alerts st →
  let st' := handleSave B f t now now' st in
  let report := make_report B f t now now' in
  let stored := report :: existing in
  localStorage st' !! REPORTS_KEY = Some (JSON_stringify B (JArr stored))
  ∧ isSaved st' = true
  ∧ (∀ key, key ≠ REPORTS_KEY → localStorage st' !! key = localStorage st !! key)
  ∧ length stored = S (length existing)
  ∧ existing `suffix_of` stored
  ∧ (∀ i old, existing !! i = Some old → stored !! S i = Some old)
  ∧ report
    = JObj [ (js "id", JStr (js "report-" ++ number_toString B now));
             (js "feedback", feedback_json f);
             (js "transcript", JArr (message_json <$> t));
             (js "savedAt", JStr (toISOString B now')) ]
  ∧ (truthy (JSON_stringify B (JArr stored)) = true →
     JSON_parse B (JSON_stringify B (JArr stored)) = Some (JArr stored) →
     existingReports B st' = Some (JArr stored)).
Proof.
  intros Hexisting Hok st' report stored. subst st'.
  unfold handleSave in *. rewrite Hexisting in *.
  fold report in Hok |- *. fold stored in Hok |- *.
  destruct (storage_accepts B (localStorage st) REPORTS_KEY
              (JSON_stringify B (JArr stored))); simpl in *; [|lia].
  split; [by rewrite lookup_insert_eq|].
  split; [done|].
  split; [by intros key Hkey; rewrite lookup_insert_ne|].
  split; [done|].
  split; [by exists [report]|].
  split; [done|].
  split; [done|].
  intros Htruthy Hparse. unfold existingReports. simpl.
  by rewrite lookup_insert_eq, Htruthy.
Qed.

Lemma handleSave_extends_witness :
  localStorage
    (handleSave sample_browser sample_feedback [] 0 0 sample_feedback_state)
    !! REPORTS_KEY
  = Some (js "[2 reports]").
Proof.
  destruct (handleSave_extends sample_browser sample_feedback [] 0 0
              sample_feedback_state [sample_stored_report]) as (Hstored & _);
    [reflexivity | reflexivity |].
  rewrite Hstored. reflexivity.
Defined.

(** A stored value that is no list makes [unshift] throw: nothing is
    written. *)
Example handleSave_not_a_list :
  let st := {| localStorage := {[ REPORTS_KEY := js "null" ]};
               isSaved := false; alerts := 0 |} in
  handleSave sample_browser sample_feedback [] 0 0 st
  = {| localStorage := localStorage st; isSaved := false; alerts := 1 |}.
Proof. reflexivity. Qed.

(** ** The interview status, one handler at a time *)

Lemma run_events_reachable svc P es : ∀ c c',
  reachable svc P c → run_events svc P es c = Some c' → reachable svc P c'.
Proof.
  induction es as [|e es IH]; intros c c' Hc Hrun; simpl in Hrun.
  - injection Hrun as <-. exact Hc.
  - destruct (enabled e c) eqn:He; [|discriminate Hrun].
    eapply IH; [|done]. by apply reachable_step.
Qed.

Example interview_run :
  (edges <$> run_events (sample_services api_answers) sample_props
               interview_events screen0)
  = Some [ (starting, processing_answer); (processing_answer, ai_speaking);
           (ai_speaking, waiting_for_user); (waiting_for_user, recording);
           (recording, processing_answer); (processing_answer, ai_speaking);
           (ai_speaking, waiting_for_user); (waiting_for_user, finished) ].
Proof. vm_compute. reflexivity. Qed.

Lemma run_takes_reachable svc es e :
  run_takes svc es e = true →
  ∃ svc c, reachable svc sample_props c ∧ e ∈ edges c.
Proof.
  unfold run_takes.
  destruct (run_events svc sample_props es screen0) as [c|] eqn:Hrun; [|done].
  intros Hin%bool_decide_eq_true. exists svc, c. split; [|done].
  by apply (run_events_reachable svc sample_props es screen0);
    [apply reachable_init|].
Qed.

(** Each of these twelve transitions is taken by a run in which every
    handler completes before the next event. *)
Lemma status_edge_taken (e : InterviewStatus * InterviewStatus) :
  status_edge e = true →
  ∃ svc c, reachable svc sample_props c ∧ e ∈ edges c.
Proof.
  intros He.
  destruct e as [[] []]; simpl in He; try discriminate He.
  - by apply (run_takes_reachable (sample_services api_answers) interview_events);
      vm_compute.
  - by apply (run_takes_reachable (sample_services api_answers) interview_events);
      vm_compute.
  - by apply (run_takes_reachable (sample_services api_answers) (error_events []));
      vm_compute.
  - by apply (run_takes_reachable (sample_services api_answers) interview_events);
      vm_compute.
  - by apply (run_takes_reachable (sample_services api_answers)
                (error_events (js "Yes.")));
      vm_compute.
  - by apply (run_takes_reachable (sample_services api_answers) interview_events);
      vm_compute.
  - by apply (run_takes_reachable (sample_services api_answers) (error_events []));
      vm_compute.
  - by apply (run_takes_reachable (sample_services api_answers) interview_events);
      vm_compute.
  - by apply (run_takes_reachable (sample_services api_answers) interview_events);
      vm_compute.
  - by apply (run_takes_reachable (sample_services (api_answers_first 2))
                [ Mount 100; AudioEnded; ToggleRecording true;
                  RecognitionResult (js "Yes."); RecognitionEnd 200 ]);
      vm_compute.
  - by apply (run_takes_reachable (sample_services api_down) [Mount 100]);
      vm_compute.
  - by apply (run_takes_reachable (sample_services api_down)
                [Mount 100; EndInterview]);
      vm_compute.
Qed.


(** ** The interview status, handlers interleaved *)






Section StatusKept.
Context (svc : Services) (P : Props).












Lemma fire_all_running steps : ∀ R R',
  running svc P R → fire_all svc P steps R = Some R' → running svc P R'.
Proof.
  induction steps as [|step steps IH]; intros R R' HR Hrun; simpl in Hrun.
  - by injection Hrun as <-.
  - destruct (fire svc P step R) as [R1|] eqn:Hfire; [|discriminate Hrun].
    eapply IH; [|done]. by eapply running_step.
Qed.

End StatusKept.

Lemma fire_promptly_fire_all svc P steps : ∀ rendered R R',
  fire_promptly svc P rendered steps R = Some R' →
  fire_all svc P steps R = Some R'.
Proof.
  induction steps as [|step steps IH]; intros rendered R R' Hrun; [done|].
  simpl in *. destruct (comes_next rendered step R); [|discriminate Hrun].
  destruct (fire svc P step R) as [R1|]; [|discriminate Hrun]. by eapply IH.
Qed.

Lemma fire_promptly_running svc P steps R :
  fire_promptly svc P true steps running0 = Some R → running svc P R.
Proof.
  intros Hrun%fire_promptly_fire_all.
  by apply (fire_all_running svc P steps running0); [apply running_init|].
Qed.




(** The transitions of [late_replies_steps], in the order they are
    taken. *)
Example late_replies_run :
  (edges ∘ screen <$> fire_promptly closing_services sample_props true
                        late_replies_steps running0)
  = Some [ (starting, processing_answer); (processing_answer, ai_speaking);
           (ai_speaking, waiting_for_user); (waiting_for_user, recording);
           (recording, processing_answer);
           (processing_answer, processing_answer);
           (processing_answer, processing_answer);
           (processing_answer, ai_speaking); (ai_speaking, processing_answer);
           (processing_answer, ai_speaking); (ai_speaking, ai_speaking);
           (ai_speaking, waiting_for_user); (waiting_for_user, ai_speaking);
           (ai_speaking, waiting_for_user); (waiting_for_user, recording);
           (recording, recording); (recording, waiting_for_user);
           (waiting_for_user, processing_answer);
           (processing_answer, processing_answer);
           (processing_answer, processing_answer);
           (processing_answer, processing_answer);
           (processing_answer, finished); (finished, processing_answer);
           (processing_answer, finished); (finished, finished);
           (finished, ai_speaking); (ai_speaking, finished);
           (finished, waiting_for_user); (waiting_for_user, finished) ].
Proof. vm_compute. reflexivity. Qed.


(** ** Answers held by the component *)


Lemma trim_truthy answer : truthy (trim answer) = true → answer ≠ [].
Proof. by intros Htrim ->. Qed.

Lemma close_last_turn_answers now turnData prevTurns :
  Forall answer_not_empty prevTurns →
  Forall answer_not_empty (close_last_turn now turnData prevTurns).
Proof.
  intros Hprev. unfold close_last_turn.
  destruct (prevTurns !! (length prevTurns - 1)%nat) as [lastTurn|] eqn:Hlast;
    [|done].
  assert (Hlast' : answer_not_empty (with_feedback turnData lastTurn))
    by apply (Forall_lookup_1 _ _ _ _ Hprev Hlast).
  destruct (truthy (nextQuestion turnData));
    apply Forall_app; (split; [by apply Forall_take|]);
    repeat constructor; done.
Qed.

(** * Further properties *)

(** ** The retry wrapper: what it returns in every case *)

(** X1.  The wrapper always hands back the outcome of the last call it
    made: all calls before it were rate-limited, a sleep precedes each
    retry, and a rate-limit error comes back only from the third call.
    The [throw] after the loop is never reached. *)
Theorem generateContentWithRetry_last_call api rq w :
  let run := generateContentWithRetry api rq w in
  ∃ k, (k < MAX_RETRIES)%nat
       ∧ rate_limited api rq (length (calls w)) k
       ∧ run.1 = api (length (calls w) + k)%nat rq
       ∧ calls run.2 = calls w ++ replicate (S k) rq
       ∧ sleeps run.2 = sleeps w ++ (backoff_delay <$> seq 1 k)
       ∧ ∀ e, run.1 = Rejected e → is_rate_limit e = true → k = 2%nat.
Proof.
  intros run. subst run. unfold generateContentWithRetry.
  destruct (retry_loop_last_call api rq MAX_RETRIES 0%nat w)
    as (k & Hk & Hrl & Hout & Hnet & Hstop); [done | unfold MAX_RETRIES; lia |].
  exists k. split; [lia|]. split; [done|]. split; [done|].
  rewrite Hnet. split; [apply after_retries_calls|]. split; [done|].
  intros e He Hr. rewrite Hout in He.
  specialize (Hstop e He Hr). unfold MAX_RETRIES in Hstop. lia.
Qed.

(** ** The rate-limit test *)

Lemma starts_with_prefix needle : ∀ s,
  starts_with needle s = true ↔ ∃ after, s = needle ++ after.
Proof.
  induction needle as [|c needle IH]; intros s; simpl.
  - split; [eauto | done].
  - destruct s as [|d s].
    + split; [done | intros [after Heq]; simpl in Heq; discriminate Heq].
    + rewrite andb_true_iff, N.eqb_eq, IH. split.
      * intros [-> [after ->]]. eauto.
      * intros [after Heq]. simpl in Heq. injection Heq as -> ->. eauto.
Qed.

Lemma includes_substring needle : ∀ s,
  includes s needle = true ↔ substring needle s.
Proof.
  unfold substring.
  induction s as [|d s IH].
  - simpl. rewrite orb_false_r, starts_with_prefix. split.
    + intros [after Heq]. by exists [], after.
    + intros (before & after & Heq). destruct before; [eauto|discriminate Heq].
  - cbn [includes]. rewrite orb_true_iff, starts_with_prefix, IH. split.
    + intros [[after Heq] | (before & after & ->)].
      * exists [], after. done.
      * by exists (d :: before), after.
    + intros ([|d' before] & after & Heq).
      * left. by exists after.
      * right. simpl in Heq. injection Heq as -> ->. eauto.
Qed.

(** X2.  An error is retried exactly when its string form contains ['429']
    or ['RESOURCE_EXHAUSTED'] somewhere, with the same letter case. *)
Theorem is_rate_limit_substring (e : error) :
  is_rate_limit e = true
  ↔ substring (js "429") e ∨ substring (js "RESOURCE_EXHAUSTED") e.
Proof.
  unfold is_rate_limit.
  by rewrite orb_true_iff, !includes_substring.
Qed.

Example is_rate_limit_case_sensitive :
  is_rate_limit (js "ApiError: resource_exhausted") = false
  ∧ is_rate_limit (js "status 4290") = true.
Proof. by vm_compute. Qed.

(** ** The audio decoder: errors, odd shapes, and bytes out of range *)

(** X3.  [decode] is the byte-wise reduction of what [atob] returns: every
    code unit modulo 256, in order; it fails exactly where [atob]
    throws. *)
Theorem decode_bytes_mod atob base64 :
  match atob base64 with
  | Some binaryString =>
      decode atob base64 = Fulfilled ((λ c, (c mod 256)%N) <$> binaryString)
      ∧ Forall (λ b, b < 256)%N (decode_binary binaryString)
  | None => ∃ e, decode atob base64 = Rejected e
  end.
Proof.
  unfold decode. destruct (atob base64) as [binaryString|]; [|eauto].
  assert (Heq : decode_binary binaryString = (λ c, (c mod 256)%N) <$> binaryString).
  { apply list_eq. intros i.
    by rewrite decode_binary_lookup, list_lookup_fmap. }
  rewrite Heq. split; [done|].
  apply Forall_fmap, Forall_true. intros c. simpl.
  apply N.mod_upper_bound. done.
Qed.

(** X4.  [decodeAudioData] resolves exactly when the payload has an even
    number of bytes and the context creates the buffer. *)
Theorem decodeAudioData_resolves data ctx sampleRate numChannels :
  (∃ buffer, decodeAudioData data ctx sampleRate numChannels = Fulfilled buffer)
  ↔ Nat.even (length data) = true
    ∧ can_create ctx numChannels (length data / 2 / numChannels)%nat sampleRate
      = true.
Proof.
  unfold decodeAudioData, createBuffer.
  rewrite <- Nat.negb_even, int16_view_length.
  destruct (Nat.even (length data)); simpl.
  - destruct (can_create ctx numChannels _ sampleRate).
    + split; [done | eauto].
    + split; [by intros [? ?] | by intros [? ?]].
  - split; [by intros [? ?] | by intros [? ?]].
Qed.

Lemma int16_view_range data :
  Forall (λ v, -32768 ≤ v < 32768) (int16_view data).
Proof.
  induction data as [| x | x y l IH] using pair_induction; simpl;
    [done | done |].
  constructor; [apply to_int16_range | done].
Qed.

Lemma iterations_below_floor n d : (n / d ≤ iterations_below n d)%nat.
Proof.
  unfold iterations_below. destruct d as [|d]; [done|].
  apply Nat.Div0.div_le_mono. lia.
Qed.

(** X5.  Whatever the number of samples, the buffer holds the complete
    frames only: [floor(samples / numChannels)] frames per channel, each
    the quotient of its 16-bit sample by 32768; samples of a trailing
    partial frame are dropped and no [NaN] is stored. *)
Theorem decodeAudioData_complete_frames data ctx sampleRate numChannels :
  (0 < numChannels)%nat →
  Nat.even (length data) = true →
  can_create ctx numChannels (length data / 2 / numChannels)%nat sampleRate = true →
  ∃ buffer,
    decodeAudioData data ctx sampleRate numChannels = Fulfilled buffer
    ∧ length buffer = numChannels
    ∧ (∀ channelData, channelData ∈ buffer →
         length channelData = (length data / 2 / numChannels)%nat)
    ∧ ∀ c i, (c < numChannels)%nat → (i < length data / 2 / numChannels)%nat →
        ∃ v, int16_view data !! (i * numChannels + c)%nat = Some v
             ∧ -32768 ≤ v < 32768
             ∧ buffer !! c ≫= (.!! i) = Some (Num (v # 32768)).
Proof.
  intros Hnc Heven Hcan.
  unfold decodeAudioData, createBuffer.
  rewrite <- Nat.negb_even, Heven. cbn [negb].
  rewrite int16_view_length, Hcan.
  set (frames := (length data / 2 / numChannels)%nat).
  set (fill := λ (channel : nat) (channelData : list f32),
         foldl (λ channelData i,
                  <[i := pcm_sample (int16_view data) (i * numChannels + channel)]>
                    channelData) channelData
               (seq 0 (iterations_below (length data / 2) numChannels))).
  eexists. split; [reflexivity|].
  split; [by rewrite (update_loop_length fill), length_replicate|].
  split.
  - intros channelData [c Hc]%list_elem_of_lookup. revert Hc.
    rewrite (update_loop_lookup fill). case_decide as Hc.
    + rewrite lookup_replicate_2 by lia. simpl. intros [= <-]. unfold fill.
      by rewrite (fill_loop_length
                    (λ i, pcm_sample (int16_view data) (i * numChannels + c))),
        length_replicate.
    + intros Hz%lookup_replicate_1. lia.
  - intros c i Hc Hi.
    assert (Hsample : (i * numChannels + c < length (int16_view data))%nat).
    { rewrite int16_view_length.
      assert ((i + 1) * numChannels ≤ length data / 2)%nat; [|lia].
      transitivity (frames * numChannels)%nat; [apply Nat.mul_le_mono_r; lia|].
      subst frames. rewrite Nat.mul_comm. apply Nat.Div0.mul_div_le. }
    destruct (lookup_lt_is_Some_2 _ _ Hsample) as [v Hv].
    exists v. split; [done|].
    split; [apply (Forall_lookup_1 _ _ _ _ (int16_view_range data) Hv)|].
    rewrite (update_loop_lookup fill). case_decide; [|lia].
    rewrite lookup_replicate_2 by lia. simpl. unfold fill.
    rewrite (fill_loop_lookup
               (λ i, pcm_sample (int16_view data) (i * numChannels + c))).
    rewrite length_replicate.
    pose proof (iterations_below_floor (length data / 2) numChannels).
    case_decide; [|unfold frames in *; lia].
    unfold pcm_sample. by rewrite Hv.
Qed.

Lemma decodeAudioData_complete_frames_witness :
  ∃ buffer,
    decodeAudioData [0; 128; 255; 127; 1; 0; 255; 255; 3; 3]%N plain_context 24000 2
    = Fulfilled buffer
    ∧ length buffer = 2%nat
    ∧ buffer !! 1%nat ≫= (.!! 1%nat) = Some (Num (-1 # 32768)).
Proof.
  destruct (decodeAudioData_complete_frames
              [0; 128; 255; 127; 1; 0; 255; 255; 3; 3]%N plain_context 24000 2)
    as (buffer & Hbuffer & Hlen & _ & Hsamples);
    [lia | reflexivity | reflexivity |].
  exists buffer. split; [exact Hbuffer|]. split; [exact Hlen|].
  destruct (Hsamples 1%nat 1%nat) as (v & Hv & _ & Hs);
    [lia | vm_compute; lia |].
  vm_compute in Hv. injection Hv as <-. exact Hs.
Defined.

(** ** The transcript: how it is put together *)

(** X6.  The transcript of two runs of turns is the transcript of the first
    followed by the transcript of the second. *)
Theorem finalTranscript_app (ts ts' : list Turn) :
  finalTranscript (ts ++ ts') = finalTranscript ts ++ finalTranscript ts'.
Proof.
  unfold finalTranscript.
  by rewrite !finalTranscript_from, fmap_app, concat_app.
Qed.

Lemma finalTranscript_cons turn (ts : list Turn) :
  finalTranscript (turn :: ts) = turn_messages turn ++ finalTranscript ts.
Proof.
  unfold finalTranscript. by rewrite !finalTranscript_from.
Qed.

(** X7.  Read by speaker, the transcript is the list of all questions and
    the list of the non-empty answers, each in the order of the turns;
    it has one message per turn and one more per answered turn. *)
Theorem finalTranscript_by_speaker (ts : list Turn) :
  texts_of ai (finalTranscript ts) = t_question <$> ts
  ∧ texts_of user (finalTranscript ts) = omap spoken_answer ts
  ∧ length (finalTranscript ts)
    = (length ts + length (filter (λ t, has_answer t = true) ts))%nat.
Proof.
  unfold texts_of.
  induction ts as [|turn ts (IHai & IHuser & IHlen)]; [done|].
  rewrite finalTranscript_cons, !filter_app, !fmap_app, length_app.
  rewrite IHai, IHuser, IHlen.
  rewrite (filter_cons (λ t, has_answer t = true)).
  unfold turn_messages, spoken_answer. simpl omap.
  destruct (has_answer turn) eqn:Hans.
  - rewrite decide_True by done.
    destruct (t_answer turn) as [answer|] eqn:Ha;
      [|unfold has_answer in Hans; by rewrite Ha in Hans].
    repeat split; simpl; lia.
  - rewrite decide_False by done.
    destruct (t_answer turn); repeat split; simpl; lia.
Qed.

(** ** What counts as a blank answer *)

Lemma trim_start_nil s : trim_start s = [] → white_space s.
Proof.
  induction s as [|ch s IH]; simpl; [by constructor|].
  destruct (is_white_space ch) eqn:Hch; [|done].
  intros Hs. constructor; [done | by apply IH].
Qed.

Lemma trim_start_split s :
  ∃ before, s = before ++ trim_start s ∧ white_space before.
Proof.
  induction s as [|ch s (before & Heq & Hws)]; simpl.
  - exists []. split; [done | constructor].
  - destruct (is_white_space ch) eqn:Hch.
    + exists (ch :: before). split; [by rewrite Heq at 1 | by constructor].
    + exists []. split; [done | constructor].
Qed.

Lemma trim_nil_white answer : trim answer = [] ↔ white_space answer.
Proof.
  split; [|apply trim_blank].
  unfold trim, trim_end. intros Hnil.
  destruct (trim_start_split answer) as (before & Heq & Hbefore).
  rewrite Heq. apply Forall_app. split; [done|].
  apply Forall_reverse, trim_start_nil.
  apply (f_equal reverse) in Hnil. by rewrite reverse_involutive in Hnil.
Qed.

Lemma not_white_truthy answer : ¬ white_space answer → truthy (trim answer) = true.
Proof.
  intros Hnot. destruct (trim answer) eqn:Htrim; [|done].
  by apply trim_nil_white in Htrim.
Qed.


(** *** speakText *)

Lemma speakText_frame svc text (c : Screen) :
  conversationHistory (speakText svc text c) = conversationHistory c
  ∧ finalAnswer (speakText svc text c) = finalAnswer c
  ∧ isGeneratingFeedback (speakText svc text c) = isGeneratingFeedback c
  ∧ transcript (speakText svc text c) = transcript c
  ∧ recognizing (speakText svc text c) = recognizing c
  ∧ mounted (speakText svc text c) = mounted c
  ∧ reported (speakText svc text c) = reported c.
Proof.
  unfold speakText, request_with_retry.
  repeat (case_match; simplify_eq/=; try done).
Qed.



Lemma speakText_edges svc text (c : Screen) :
  ∃ rest, edges (speakText svc text c) = edges c ++ rest.
Proof.
  unfold speakText, request_with_retry.
  repeat (case_match; simplify_eq/=);
    first [ by exists []; rewrite app_nil_r
          | by eexists; rewrite <- app_assoc
          | by eexists ].
Qed.



(** *** handleAnswerSubmit on an answer with text in it *)



Lemma close_last_turn_snoc now turnData (ts : list Turn) lastTurn :
  close_last_turn now turnData (ts ++ [lastTurn])
  = ts ++ with_feedback turnData lastTurn ::
      (if truthy (nextQuestion turnData)
       then [ {| t_id := now; t_question := nextQuestion turnData;
                 t_answer := None; t_feedback := None; t_score := None |} ]
       else []).
Proof.
  unfold close_last_turn.
  replace (length (ts ++ [lastTurn]) - 1)%nat with (length ts)
    by (rewrite length_app; simpl; lia).
  rewrite list_lookup_middle by done.
  rewrite take_app_length.
  by destruct (truthy (nextQuestion turnData)).
Qed.

(** X9.  With no turn on the screen a non-blank answer only moves the
    status to ['processing_answer']: the handler throws before its
    [try], so no request is sent and [finalAnswer] is not reset. *)
Theorem handleAnswerSubmit_no_turn svc now answer (c : Screen) :
  ¬ white_space answer →
  turns c = [] →
  handleAnswerSubmit svc now answer c = setStatus processing_answer c.
Proof.
  intros Htext%not_white_truthy Hturns. unfold handleAnswerSubmit.
  rewrite Htext. simpl. by rewrite Hturns.
Qed.

Lemma handleAnswerSubmit_no_turn_witness :
  handleAnswerSubmit (sample_services api_answers) 0 (js "Yes.") screen0
  = setStatus processing_answer screen0.
Proof.
  apply (handleAnswerSubmit_no_turn (sample_services api_answers) 0 (js "Yes.")
           screen0); [|reflexivity].
  intros Hwhite. apply Forall_cons in Hwhite as [Hwhite _].
  vm_compute in Hwhite. discriminate Hwhite.
Defined.





(** An earlier turn that shares the id of the current one is given the
    answer as well. *)
Example handleAnswerSubmit_same_id :
  let t := {| t_id := 100; t_question := js "Q"; t_answer := Some (js "first");
              t_feedback := Some (js "ok"); t_score := Some 5 |} in
  let c := setTurns (λ _, [t; with_answer (js "first") t]) sample_screen in
  (t_answer <$> turns (handleAnswerSubmit (sample_services api_down) 300
                         (js "second") c))
  = [Some (js "second"); Some (js "second")].
Proof. vm_compute. reflexivity. Qed.

(** *** startInterview *)



(** *** handleEndInterview *)


(** ** The application: its reachable states *)

Lemma app_step_shape e a : app_shape a → app_shape (app_step e a).
Proof.
  unfold app_shape, app_step, renderContent.
  destruct a as [s l r v t f]; simpl.
  destruct s; simpl.
  - intros [= -> -> -> -> ->]. destruct e; simpl; eauto.
  - intros [= -> -> -> -> ->]. destruct e; simpl; eauto.
  - intros (l' & [= -> -> -> -> ->]). destruct e; simpl; eauto.
  - intros (l' & r' & [= -> -> -> -> ->]). destruct e; simpl; eauto.
  - intros (l' & r' & v' & [= -> -> -> -> ->]). destruct e; simpl; eauto 10.
  - intros (l' & r' & v' & t' & f' & [= -> -> -> -> ->]).
    destruct (as_feedback_state f') as [g|] eqn:Hg; simpl;
      [destruct (feedback_truthy g)|]; destruct e; simpl;
      try done; rewrite <- ?Hg; eauto 10.
Qed.

Lemma app_reachable_shape a : app_reachable a → app_shape a.
Proof.
  induction 1 as [|e a _ IH]; [done|]. by apply app_step_shape.
Qed.

Lemma app_run_reachable es : ∀ a, app_reachable a → app_reachable (app_run es a).
Proof.
  induction es as [|e es IH]; intros a Ha; [done|].
  apply IH. by apply app_reachable_step.
Qed.

(** X22.  The application is only ever in one of six shapes, one per step,
    holding exactly the choices made so far and, on the feedback step,
    the transcript and whatever it was handed as feedback, [null]
    included: nothing of an earlier interview is left over, and each
    of these shapes does occur. *)
Theorem app_reachable_states (a : App) : app_reachable a ↔ app_shape a.
Proof.
  split; [apply app_reachable_shape|].
  unfold app_shape. destruct a as [s l r v t f]; simpl.
  destruct s.
  - intros ->. apply app_reachable_init.
  - intros ->. apply (app_run_reachable [GetStarted] app0), app_reachable_init.
  - intros (l' & ->).
    apply (app_run_reachable [GetStarted; SelectLanguage l'] app0),
      app_reachable_init.
  - intros (l' & r' & ->).
    apply (app_run_reachable [GetStarted; SelectLanguage l'; SelectRole r'] app0),
      app_reachable_init.
  - intros (l' & r' & v' & ->).
    apply (app_run_reachable
             [GetStarted; SelectLanguage l'; SelectRole r'; SelectLevel v'] app0),
      app_reachable_init.
  - intros (l' & r' & v' & t' & f' & ->).
    apply (app_run_reachable
             [GetStarted; SelectLanguage l'; SelectRole r'; SelectLevel v';
              InterviewEnd t' f'] app0),
      app_reachable_init.
Qed.

(** X23.  Of the two fallbacks of [renderContent] marked "should not
    happen", the one of ['in-progress'] does not happen: rendering
    never changes the state and never shows nothing, and the interview
    screen gets the three stored selections.  The one of ['feedback']
    does: the error text is shown exactly on the feedback step with a
    falsy feedback, which is where the end of an interview with a
    falsy feedback ([null], say) leads; nothing can be clicked there.
    With a truthy feedback the feedback screen gets the feedback and
    the transcript handed over. *)
Theorem renderContent_total (a : App) :
  app_reachable a →
  (renderContent a).2 = a
  ∧ (renderContent a).1 ≠ Nothing
  ∧ (interviewState a = in_progress →
     ∃ l r v, selectedLanguage a = Some l ∧ selectedRole a = Some r
              ∧ selectedLevel a = Some v
              ∧ (renderContent a).1 = InterviewScreen l r v)
  ∧ ((renderContent a).1 = ErrorMessage
     ↔ interviewState a = feedback
       ∧ ∀ f, a_feedback a = Some f → feedback_truthy f = false)
  ∧ ((renderContent a).1 = ErrorMessage → ∀ e, app_step e a = a)
  ∧ (interviewState a = in_progress →
     ∀ t f,
       let a' := app_step (InterviewEnd t f) a in
       app_reachable a'
       ∧ (feedback_truthy f = false → (renderContent a').1 = ErrorMessage)
       ∧ (feedback_truthy f = true → (renderContent a').1 = FeedbackScreen f t)).
Proof.
  intros Hreach. pose proof (app_reachable_shape a Hreach) as Hshape.
  unfold app_shape in Hshape.
  destruct a as [s l r v t f]; simpl in *.
  destruct s; simpl in Hshape.
  - injection Hshape as -> -> -> -> ->.
    repeat split; try done; by intros [? ?].
  - injection Hshape as -> -> -> -> ->.
    repeat split; try done; by intros [? ?].
  - destruct Hshape as (l' & [= -> -> -> -> ->]).
    repeat split; try done; by intros [? ?].
  - destruct Hshape as (l' & r' & [= -> -> -> -> ->]).
    repeat split; try done; by intros [? ?].
  - destruct Hshape as (l' & r' & v' & [= -> -> -> -> ->]).
    split; [done|]. split; [done|]. split; [eauto 10|].
    split; [split; [done | by intros [? ?]]|]. split; [done|].
    intros _ t' f'. split; [by apply app_reachable_step|].
    unfold app_step, renderContent. simpl.
    destruct f' as [g|[]]; simpl; repeat case_match; split; intros;
      simplify_eq/=; done.
  - destruct Hshape as (l' & r' & v' & t' & f' & [= -> -> -> -> ->]).
    unfold app_step, renderContent. simpl.
    destruct (as_feedback_state f') as [g|] eqn:Hg; simpl.
    + destruct (feedback_truthy g) eqn:Htruthy; simpl.
      * split; [done|]. split; [done|]. split; [done|].
        split; [|done]. split; [done|]. intros [_ Hfalsy].
        specialize (Hfalsy g eq_refl). congruence.
      * split; [done|]. split; [done|]. split; [done|].
        split; [split; [|done]; intros _; split; [done|]; by intros g' [= <-]|].
        split; [|done]. intros _ e. by destruct e.
    + split; [done|]. split; [done|]. split; [done|].
      split; [split; [|done]; intros _; split; [done|]; by intros g' [=]|].
      split; [|done]. intros _ e. by destruct e.
Qed.

Lemma renderContent_total_witness :
  (renderContent app_selected).1 = InterviewScreen HI DataAnalyst MidCareer
  ∧ (renderContent (app_step (InterviewEnd [] (FeedbackJson JNull)) app_selected)).1
    = ErrorMessage.
Proof.
  destruct (renderContent_total app_selected) as (_ & _ & Hscreen & _ & _ & Hend).
  - repeat apply app_reachable_step. apply app_reachable_init.
  - split.
    + destruct Hscreen as (l & r & v & Hl & Hr & Hv & ->); [reflexivity|].
      vm_compute in Hl, Hr, Hv. by injection Hl as <-; injection Hr as <-;
        injection Hv as <-.
    + by apply (Hend eq_refl [] (FeedbackJson JNull)).
Defined.

(** ** Saving: failures, repeated saves, repeated clicks *)

Lemma existingReports_storage B (st st' : FeedbackState) :
  localStorage st' = localStorage st →
  existingReports B st' = existingReports B st.
Proof. unfold existingReports. by intros ->. Qed.

Lemma handleSave_cases B f t now now' (st : FeedbackState) :
  (∃ existing,
     existingReports B st = Some (JArr existing)
     ∧ handleSave B f t now now' st
       = {| localStorage :=
              <[REPORTS_KEY :=
                  JSON_stringify B (JArr (make_report B f t now now' :: existing))]>
                (localStorage st);
            isSaved := true; alerts := alerts st |})
  ∨ handleSave B f t now now' st
    = {| localStorage := localStorage st; isSaved := isSaved st;
         alerts := S (alerts st) |}.
Proof.
  unfold handleSave, save_failed.
  destruct (existingReports B st) as [[| | | |existing|]|]; eauto.
  destruct (storage_accepts B _ _ _); eauto.
Qed.

(** X24.  [handleSave] either reads a list, writes that list with the new
    report put in front under the reports' key and marks the report
    saved, or, when the stored text does not parse, is no list, or the
    storage refuses the new text, raises one alert and changes neither
    the storage nor the saved mark.  It never touches another key and
    it fails exactly in those three cases. *)
Theorem handleSave_outcome B f t now now' (st : FeedbackState) :
  let st' := handleSave B f t now now' st in
  (∀ key, key ≠ REPORTS_KEY → localStorage st' !! key = localStorage st !! key)
  ∧ ((∃ existing,
        existingReports B st = Some (JArr existing)
        ∧ localStorage st'
          = <[REPORTS_KEY :=
                JSON_stringify B (JArr (make_report B f t now now' :: existing))]>
              (localStorage st)
        ∧ alerts st' = alerts st ∧ isSaved st' = true)
     ∨ alerts st' = S (alerts st) ∧ isSaved st' = isSaved st
       ∧ localStorage st' = localStorage st)
  ∧ (alerts st' = S (alerts st)
     ↔ ¬ ∃ existing,
           existingReports B st = Some (JArr existing)
           ∧ storage_accepts B (localStorage st) REPORTS_KEY
               (JSON_stringify B (JArr (make_report B f t now now' :: existing)))
             = true).
Proof.
  intros st'. subst st'. unfold handleSave, save_failed.
  destruct (existingReports B st) as [[| | | |existing|]|] eqn:Hex; simpl;
    try (split; [done|]; split; [by right|];
         split; [by intros _ (? & [=] & _) | done]).
  destruct (storage_accepts B _ _ _) eqn:Hacc; simpl.
  - split; [by intros key Hkey; rewrite lookup_insert_ne|].
    split; [left; by exists existing|]. split; [lia|]. intros []. eauto.
  - split; [done|]. split; [by right|].
    split; [|done]. intros _ (existing' & [= <-] & Hacc'). congruence.
Qed.

(** X25.  Two saves in a row, the parser reading back what the first one
    wrote: the stored list then holds the second report, the first
    report and the earlier reports, in this order. *)
Theorem handleSave_twice B f1 t1 f2 t2 now1 now1' now2 now2'
    (st : FeedbackState) (existing : list json) :
  existingReports B st = Some (JArr existing) →
  let report1 := make_report B f1 t1 now1 now1' in
  let report2 := make_report B f2 t2 now2 now2' in
  truthy (JSON_stringify B (JArr (report1 :: existing))) = true →
  JSON_parse B (JSON_stringify B (JArr (report1 :: existing)))
  = Some (JArr (report1 :: existing)) →
  let st' := handleSave B f2 t2 now2 now2' (handleSave B f1 t1 now1 now1' st) in
  alerts st' = alerts st →
  localStorage st' !! REPORTS_KEY
  = Some (JSON_stringify B (JArr (report2 :: report1 :: existing))).
Proof.
  intros Hex report1 report2 Htruthy Hparse st'. subst st'.
  destruct (handleSave_cases B f1 t1 now1 now1' st)
    as [(existing1 & Hex1 & ->) | ->].
  - assert (existing1 = existing) by congruence. subst existing1.
    fold report1.
    set (st1 := {| localStorage := _; isSaved := true; alerts := alerts st |}).
    assert (Hex' : existingReports B st1 = Some (JArr (report1 :: existing))).
    { unfold existingReports, st1. simpl.
      by rewrite lookup_insert_eq, Htruthy. }
    destruct (handleSave_cases B f2 t2 now2 now2' st1)
      as [(existing2 & Hex2 & ->) | ->]; simpl.
    + assert (existing2 = report1 :: existing) by congruence. subst existing2.
      intros _. by rewrite lookup_insert_eq.
    + lia.
  - set (st1 := {| localStorage := _; isSaved := _; alerts := S (alerts st) |}).
    destruct (handleSave_cases B f2 t2 now2 now2' st1)
      as [(existing2 & Hex2 & ->) | ->]; simpl; lia.
Qed.

Lemma handleSave_twice_witness :
  localStorage
    (handleSave reading_browser sample_feedback [] 5 5
       (handleSave reading_browser sample_feedback [] 0 0 empty_feedback_state))
    !! REPORTS_KEY
  = Some (js "[2 reports]").
Proof.
  rewrite (handleSave_twice reading_browser sample_feedback [] sample_feedback []
             0 0 5 5 empty_feedback_state []); reflexivity.
Defined.

Lemma save_click_saved B f t clocks : ∀ st,
  isSaved st = true → foldl (λ st clock, save_click B f t clock st) st clocks = st.
Proof.
  induction clocks as [|clock clocks IH]; intros st Hsaved; simpl; [done|].
  unfold save_click at 2. rewrite Hsaved. by apply IH.
Qed.

(** X26.  However often Save is clicked on one feedback screen, at most one
    report is written: the storage ends as it was, or with the report
    of one of the clicks put before the reports stored at the start.
    Clicks after the successful one do nothing. *)
Theorem save_click_once B f t (clocks : list (Z * Z)) (st : FeedbackState) :
  isSaved st = false →
  let st' := foldl (λ st clock, save_click B f t clock st) st clocks in
  localStorage st' = localStorage st ∧ isSaved st' = false
  ∨ ∃ clock existing,
      clock ∈ clocks
      ∧ existingReports B st = Some (JArr existing)
      ∧ isSaved st' = true
      ∧ localStorage st'
        = <[REPORTS_KEY :=
              JSON_stringify B
                (JArr (make_report B f t clock.1 clock.2 :: existing))]>
            (localStorage st).
Proof.
  revert st. induction clocks as [|clock clocks IH]; intros st Hsaved; simpl.
  - by left.
  - assert (Hclick : save_click B f t clock st
                     = handleSave B f t clock.1 clock.2 st)
      by (unfold save_click; by rewrite Hsaved).
    rewrite Hclick.
    destruct (handleSave_cases B f t clock.1 clock.2 st)
      as [(existing & Hex & ->) | ->].
    + right. exists clock, existing. rewrite save_click_saved by done.
      split; [apply list_elem_of_here|]. done.
    + set (st1 := {| localStorage := localStorage st; isSaved := isSaved st;
                     alerts := S (alerts st) |}).
      destruct (IH st1 Hsaved)
        as [[Hst Hs] | (clock' & existing & Hin & Hex & Hs & Hst)].
      * by left.
      * right. exists clock', existing.
        split; [by apply list_elem_of_further|]. done.
Qed.

Lemma save_click_once_witness :
  localStorage
    (foldl (λ st clock, save_click reading_browser sample_feedback [] clock st)
       empty_feedback_state [(0, 0); (5, 5); (9, 9)])
  = {[ REPORTS_KEY := js "[1 reports]" ]}.
Proof.
  destruct (save_click_once reading_browser sample_feedback [] [(0, 0); (5, 5); (9, 9)]
              empty_feedback_state) as [[_ Hsaved] | (clock & existing & _ & Hex & _ & ->)];
    [reflexivity | vm_compute in Hsaved; discriminate Hsaved |].
  vm_compute in Hex. injection Hex as <-. reflexivity.
Defined.

(** ** The score colour *)

(** X27.  A higher score never gets a worse colour: red below 60, yellow
    from 60, green from 80. *)
Theorem getScoreColor_monotone (score score' : Z) :
  score ≤ score' →
  (color_rank (getScoreColor score) ≤ color_rank (getScoreColor score'))%nat
  ∧ (getScoreColor score = text_green_400 ↔ 80 ≤ score)
  ∧ (getScoreColor score = text_red_400 ↔ score < 60).
Proof.
  intros Hle. unfold getScoreColor.
  destruct (Z.leb_spec 80 score), (Z.leb_spec 60 score),
    (Z.leb_spec 80 score'), (Z.leb_spec 60 score');
    simpl; repeat split; intros; (lia || done).
Qed.

Lemma getScoreColor_monotone_witness :
  (color_rank (getScoreColor 59) ≤ color_rank (getScoreColor 60))%nat.
Proof. apply (getScoreColor_monotone 59 60). lia. Defined.

(** ** The controls of the interview screen *)

(** X21.  The microphone button is rendered only while waiting for the user
    or recording, and then it is never disabled; the End button is
    enabled exactly in the statuses in which the event system lets
    [EndInterview] through. *)
Theorem controls_shown (c : Screen) :
  (∀ canvas disabled title,
     render_controls c = Microphone canvas disabled title →
     disabled = false
     ∧ isGeneratingFeedback c = false
     ∧ (status c = waiting_for_user ∧ canvas = false
        ∨ status c = recording ∧ canvas = true))
  ∧ (render_controls c = NoControls
     ↔ status c = finished
       ∨ isGeneratingFeedback c = true
         ∧ (status c = waiting_for_user ∨ status c = recording))
  ∧ enabled EndInterview c
    = mounted c && is_nil (reported c) && negb (end_disabled c).
Proof.
  unfold render_controls, end_disabled, status_eqb.
  destruct (status c) eqn:Hs, (isGeneratingFeedback c) eqn:Hg; simpl;
    repeat split; intros; simplify_eq/=;
    try done; try (by left); try (by right);
    try (by rewrite ?Hs, ?Hg, ?andb_false_r, ?andb_true_r);
    intuition congruence.
Qed.

(** ** The recognised text *)

Lemma speakText_transcript svc text (c : Screen) :
  transcript (speakText svc text c) = transcript c.
Proof. apply speakText_frame. Qed.

Lemma handleAnswerSubmit_transcript svc now answer (c : Screen) :
  transcript (handleAnswerSubmit svc now answer c) = transcript c.
Proof.
  unfold handleAnswerSubmit, request_with_retry.
  destruct (truthy (trim answer)); simpl; [|done].
  destruct (last (turns c)); simpl; [|done].
  destruct (generateContentWithRetry _ _ _) as [[response|e] w]; simpl; [|done].
  destruct (JSON_parse_turn svc (r_text response)) as [turnData|]; simpl; [|done].
  destruct (truthy (nextQuestion turnData)); simpl; [|done].
  by rewrite speakText_transcript.
Qed.

(** X20.  The recognised text is written by [onresult] only and never
    cleared: no other event changes it.  So a session that ends without
    a result finds the text of the previous answer still there, and
    [onend] submits it again. *)
Theorem transcript_kept svc P e (c : Screen) :
  (∀ t, e ≠ RecognitionResult t) →
  transcript (handle svc P e c) = transcript c.
Proof.
  intros Hother. destruct e; simpl; try done.
  - unfold startInterview, request_with_retry. simpl.
    destruct (generateContentWithRetry _ _ _) as [[response|e] w]; simpl; [|done].
    destruct (JSON_parse_turn svc (r_text response)) as [turnData|]; simpl; [|done].
    by rewrite speakText_transcript.
  - unfold handleToggleRecording. by repeat (case_match; simpl).
  - by destruct (Hother t).
  - unfold onend, submit_final_answer. simpl.
    repeat (case_match; simpl; try done).
    by rewrite handleAnswerSubmit_transcript.
  - unfold handleEndInterview, request_with_retry. simpl.
    destruct (generateContentWithRetry _ _ _) as [[response|e] w]; simpl; [|done].
    by destruct (JSON_parse_feedback svc (r_text response)).
Qed.

Lemma transcript_kept_witness :
  transcript (handle (sample_services api_answers) sample_props
                (RecognitionEnd 200) second_turn_screen)
  = js "For the proofs.".
Proof.
  rewrite (transcript_kept (sample_services api_answers) sample_props
             (RecognitionEnd 200) second_turn_screen); [reflexivity|].
  intros t Ht. discriminate Ht.
Defined.

(** The second session below hears nothing, and the first answer is
    written on the second question. *)
Example stale_transcript_resubmitted :
  (λ c, t_answer <$> turns c) <$>
  run_events (sample_services api_answers) sample_props
    [ Mount 100; AudioEnded; ToggleRecording true;
      RecognitionResult (js "I write compilers."); RecognitionEnd 200;
      AudioEnded; ToggleRecording true; RecognitionEnd 300 ] screen0
  = Some [ Some (js "I write compilers."); Some (js "I write compilers."); None ].
Proof. vm_compute. reflexivity. Qed.

(** ** The blank test, both ways *)

Lemma handleAnswerSubmit_edges svc now answer (c : Screen) :
  ¬ white_space answer →
  ∃ rest, edges (handleAnswerSubmit svc now answer c)
          = edges c ++ (status c, processing_answer) :: rest.
Proof.
  intros Htext%not_white_truthy. unfold handleAnswerSubmit, request_with_retry.
  rewrite Htext. simpl.
  destruct (last (turns c)); simpl; [|by exists []].
  destruct (generateContentWithRetry _ _ _) as [[response|e] w]; simpl.
  2: { eexists. by rewrite <- app_assoc. }
  destruct (JSON_parse_turn svc (r_text response)) as [turnData|]; simpl.
  2: { eexists. by rewrite <- app_assoc. }
  destruct (truthy (nextQuestion turnData)); simpl.
  - match goal with
    | |- context [speakText svc ?text ?c0] =>
        destruct (speakText_edges svc text c0) as [rest ->]
    end.
    simpl. eexists. by rewrite <- app_assoc.
  - eexists. by rewrite <- app_assoc.
Qed.

(** X12.  [handleAnswerSubmit] takes the early return exactly on the answers
    made of white space only (the empty answer among them): every other
    answer moves the status to ['processing_answer'] first. *)
Theorem blank_answer_iff svc now answer (c : Screen) :
  white_space answer
  ↔ handleAnswerSubmit svc now answer c = setStatus waiting_for_user c.
Proof.
  split.
  - intros Hblank. unfold handleAnswerSubmit. by rewrite (trim_blank _ Hblank).
  - intros Heq. destruct (decide (white_space answer)) as [|Htext]; [done|].
    destruct (handleAnswerSubmit_edges svc now answer c Htext) as [rest Hedges].
    rewrite Heq in Hedges. simpl in Hedges.
    apply app_inv_head in Hedges. by injection Hedges.
Qed.

(** ** Instances *)

Lemma controls_shown_witness :
  render_controls sample_screen = Microphone true false (js "Stop Recording")
  ∧ isGeneratingFeedback sample_screen = false.
Proof.
  split; [reflexivity|].
  destruct (controls_shown sample_screen) as (Hmic & _).
  by apply (Hmic true false (js "Stop Recording")).
Defined.

Lemma handleSave_outcome_witness :
  localStorage (handleSave sample_browser sample_feedback [] 0 0 sample_feedback_state)
    !! REPORTS_KEY
  = Some (js "[2 reports]")
  ∧ localStorage (handleSave sample_browser sample_feedback [] 0 0
                    sample_feedback_state) !! js "theme"
    = None.
Proof.
  destruct (handleSave_outcome sample_browser sample_feedback [] 0 0
              sample_feedback_state) as (Hkeys & [Hsaved|Hfailed] & _).
  - destruct Hsaved as (existing & Hexisting & -> & _).
    vm_compute in Hexisting. injection Hexisting as <-.
    split; [by rewrite lookup_insert_eq|].
    rewrite lookup_insert_ne by (vm_compute; discriminate). reflexivity.
  - destruct Hfailed as (Halerts & _). vm_compute in Halerts. discriminate Halerts.
Defined.

Lemma status_edge_taken_witness :
  ∃ svc c, reachable svc sample_props c ∧ (recording, processing_answer) ∈ edges c.
Proof. apply (status_edge_taken (recording, processing_answer)). reflexivity. Defined.

(** ** Answers held by the component, handlers interleaved *)

Lemma answers_kept_same (R R' : Running) :
  turns (screen R') = turns (screen R) →
  Forall answer_not_empty (turns (screen R)) →
  Forall answer_not_empty (turns (screen R')).
Proof. by intros ->. Qed.

Lemma answers_kept_setFinalAnswer a (R : Running) :
  Forall answer_not_empty (turns (screen R)) →
  Forall answer_not_empty (turns (screen (run_setFinalAnswer a R))).
Proof. unfold run_setFinalAnswer. by case_decide. Qed.

Ltac answers_kept_step :=
  match goal with
  | H : Forall answer_not_empty (turns (screen ?R))
    |- Forall answer_not_empty (turns (screen ?R)) => exact H
  | |- Forall answer_not_empty (turns (screen (run_setFinalAnswer _ _))) =>
      apply answers_kept_setFinalAnswer
  | |- Forall answer_not_empty (turns (screen (run_setStatus ?s ?R))) =>
      apply (answers_kept_same R); [done|]
  | |- Forall answer_not_empty (turns (screen (suspend ?t ?R))) =>
      apply (answers_kept_same R); [done|]
  | |- Forall answer_not_empty (turns (screen (send ?rq ?R))) =>
      apply (answers_kept_same R); [done|]
  | |- Forall answer_not_empty (turns (screen (resumed ?i ?R))) =>
      apply (answers_kept_same R); [done|]
  | |- Forall answer_not_empty (turns (screen (set_effect_due ?b ?R))) =>
      apply (answers_kept_same R); [done|]
  | |- Forall answer_not_empty (turns (screen (set_sounding ?n ?R))) =>
      apply (answers_kept_same R); [done|]
  | |- Forall answer_not_empty (turns (screen (on_screen ?f ?R))) =>
      apply (answers_kept_same R); [done|]
  | |- Forall answer_not_empty (turns (screen (match ?x with _ => _ end))) =>
      destruct x
  end.

Ltac answers_kept_steps := cbv zeta; repeat answers_kept_step.

Section AnswersKept.
Context (svc : Services) (P : Props).

Lemma answers_kept_spoken caller R :
  Forall answer_not_empty (turns (screen R)) →
  Forall answer_not_empty (turns (screen (spoken caller R))).
Proof. intros. unfold spoken. answers_kept_steps. Qed.

Lemma answers_kept_begin_speakText caller text R :
  Forall answer_not_empty (turns (screen R)) →
  Forall answer_not_empty (turns (screen (begin_speakText caller text R))).
Proof.
  intros. unfold begin_speakText. answers_kept_steps.
  by apply answers_kept_spoken.
Qed.

Lemma answers_kept_continue_speakText caller r R :
  Forall answer_not_empty (turns (screen R)) →
  Forall answer_not_empty (turns (screen (continue_speakText svc caller r R))).
Proof.
  intros. unfold continue_speakText.
  repeat first [answers_kept_step | apply answers_kept_spoken].
Qed.

Lemma answers_kept_continue_decoded caller decoded R :
  Forall answer_not_empty (turns (screen R)) →
  Forall answer_not_empty (turns (screen (continue_decoded caller decoded R))).
Proof.
  intros. unfold continue_decoded.
  repeat first [answers_kept_step | apply answers_kept_spoken].
Qed.

Lemma answers_kept_continue_startInterview now r R :
  Forall answer_not_empty (turns (screen R)) →
  Forall answer_not_empty (turns (screen (continue_startInterview svc now r R))).
Proof.
  intros. unfold continue_startInterview. cbv zeta.
  destruct r as [response|e]; [|answers_kept_steps].
  destruct (JSON_parse_turn svc (r_text response)) as [turnData|];
    [|answers_kept_steps].
  apply answers_kept_begin_speakText. simpl. by repeat constructor.
Qed.

Lemma answers_kept_begin_handleAnswerSubmit answer R :
  Forall answer_not_empty (turns (screen R)) →
  Forall answer_not_empty (turns (screen (begin_handleAnswerSubmit answer R))).
Proof.
  intros Hturns. unfold begin_handleAnswerSubmit.
  destruct (truthy (trim answer)) eqn:Htrim; simpl; [|done].
  apply trim_truthy in Htrim.
  destruct (last (turns (screen R))) as [lastTurn|]; simpl; [|done].
  apply Forall_fmap. eapply Forall_impl; [exact Hturns|].
  intros t Ht. simpl. destruct (t_id t =? t_id lastTurn); [|done].
  unfold answer_not_empty. simpl. congruence.
Qed.

Lemma answers_kept_continue_handleAnswerSubmit now updatedHistory r R :
  Forall answer_not_empty (turns (screen R)) →
  Forall answer_not_empty
    (turns (screen (continue_handleAnswerSubmit svc now updatedHistory r R))).
Proof.
  intros Hturns. unfold continue_handleAnswerSubmit. cbv zeta.
  destruct r as [response|e]; [|answers_kept_steps].
  destruct (JSON_parse_turn svc (r_text response)) as [turnData|];
    [|answers_kept_steps].
  destruct (truthy (nextQuestion turnData)).
  - apply answers_kept_begin_speakText. simpl.
    by apply close_last_turn_answers.
  - apply answers_kept_setFinalAnswer. simpl.
    by apply close_last_turn_answers.
Qed.

Lemma answers_kept_fire step R R' :
  Forall answer_not_empty (turns (screen R)) →
  fire svc P step R = Some R' →
  Forall answer_not_empty (turns (screen R')).
Proof.
  intros Hkept Hfire.
  destruct step; simpl in Hfire;
    [ destruct (mounted (screen R)); [discriminate Hfire|];
      injection Hfire as <-; exact Hkept
    | destruct (mounted (screen R) && is_nil (reported (screen R)));
      [|discriminate Hfire] .. ].
  - destruct (effect_due R); [|discriminate Hfire]. injection Hfire as <-.
    unfold run_effect. cbv zeta.
    destruct (finalAnswer _) as [answer|]; [|done].
    destruct (truthy answer); [|done].
    by apply answers_kept_begin_handleAnswerSubmit.
  - destruct (tasks R !! i) as [[]|]; try discriminate Hfire;
      injection Hfire as <-.
    + by apply answers_kept_continue_startInterview.
    + by apply answers_kept_continue_handleAnswerSubmit.
    + by apply answers_kept_continue_speakText.
    + unfold continue_handleEndInterview. answers_kept_steps.
  - destruct (tasks R !! i) as [[]|]; try discriminate Hfire;
      injection Hfire as <-.
    unfold continue_microphone. answers_kept_steps.
  - destruct (tasks R !! i) as [[]|]; try discriminate Hfire;
      injection Hfire as <-.
    + by apply answers_kept_continue_decoded.
    + answers_kept_steps.
  - destruct (render_controls (screen R)) as [|? [] ?|]; try discriminate Hfire.
    injection Hfire as <-. unfold click_microphone. answers_kept_steps.
  - destruct (end_disabled (screen R)); [discriminate Hfire|].
    injection Hfire as <-. unfold click_end. answers_kept_steps.
  - destruct (recognizing (screen R)); [|discriminate Hfire].
    injection Hfire as <-. answers_kept_steps.
  - destruct (recognizing (screen R)); [|discriminate Hfire].
    injection Hfire as <-. answers_kept_steps.
  - destruct (recognizing (screen R)); [|discriminate Hfire].
    injection Hfire as <-. unfold run_onend. answers_kept_steps.
  - destruct (sounding R); [discriminate Hfire|].
    injection Hfire as <-. answers_kept_steps.
Qed.

(** X18.  However the handlers interleave, no turn holds an empty-string
    answer: a turn's answer is truthy exactly when the answer field is
    present. *)
Theorem running_answers (R : Running) :
  running svc P R →
  ∀ turn, turn ∈ turns (screen R) →
          has_answer turn = true ↔ is_Some (t_answer turn).
Proof.
  intros Hrun.
  assert (Hturns : Forall answer_not_empty (turns (screen R))).
  { induction Hrun as [|step R R' _ IH Hfire]; [done|].
    by apply (answers_kept_fire step R). }
  intros turn Hin. rewrite Forall_forall in Hturns.
  specialize (Hturns turn Hin). unfold answer_not_empty in Hturns.
  unfold has_answer. destruct (t_answer turn) as [[|ch answer]|]; simpl.
  - done.
  - split; [eauto | done].
  - split; [done | by intros [? ?]].
Qed.

End AnswersKept.

Lemma running_answers_witness :
  match fire_promptly closing_services sample_props true
          (first_question_steps 1 ++ answer_steps 1) running0 with
  | Some R =>
      ∃ turn, turns (screen R) !! 0%nat = Some turn
              ∧ t_answer turn = Some (js "I write compilers.")
              ∧ has_answer turn = true
  | None => False
  end.
Proof.
  destruct (fire_promptly _ _ _ _ _) as [R|] eqn:Hrun;
    [|vm_compute in Hrun; discriminate Hrun].
  assert (Hreach : running closing_services sample_props R)
    by (by eapply fire_promptly_running).
  vm_compute in Hrun. injection Hrun as <-.
  eexists. split; [reflexivity|]. split; [reflexivity|].
  eapply (running_answers closing_services sample_props _ Hreach).
  - apply list_elem_of_here.
  - simpl. eauto.
Defined.

(** ** One answer, many requests *)

Lemma truthy_trim answer : truthy (trim answer) = true → truthy answer = true.
Proof. by destruct answer. Qed.

Lemma run_effect_submits (R : Running) answer :
  finalAnswer (screen R) = Some answer →
  truthy (trim answer) = true →
  turns (screen R) ≠ [] →
  let R' := run_effect R in
  sent R' = sent R ++ [ TurnRequest None
                          (conversationHistory (screen R)
                           ++ [ {| c_role := User; c_text := answer |} ]) ]
  ∧ tasks R' = tasks R ++ [ AwaitAnswer answer
                              (conversationHistory (screen R)
                               ++ [ {| c_role := User; c_text := answer |} ]) ]
  ∧ effect_due R' = true
  ∧ finalAnswer (screen R') = Some answer
  ∧ conversationHistory (screen R') = conversationHistory (screen R)
  ∧ turns (screen R') ≠ []
  ∧ length (turns (screen R')) = length (turns (screen R))
  ∧ mounted (screen R') = mounted (screen R)
  ∧ reported (screen R') = reported (screen R)
  ∧ status (screen R') = processing_answer.
Proof.
  intros Hanswer Htrim Hturns. unfold run_effect. cbv zeta. simpl.
  rewrite Hanswer, (truthy_trim answer Htrim).
  unfold begin_handleAnswerSubmit. rewrite Htrim. simpl.
  destruct (last (turns (screen R))) as [lastTurn|] eqn:Hlast.
  - simpl. repeat split; try done.
    + intros Hnil%fmap_nil_inv. done.
    + by rewrite length_map.
  - by apply last_None in Hlast.
Qed.

Section Resubmission.
Context (svc : Services) (P : Props).

(** X15.  While [finalAnswer] holds an answer with text in it, every run
    of the effect submits it again: [n] runs send [n] turn requests
    with the same history and suspend [n] calls of
    [handleAnswerSubmit], and leave the effect due once more.  Nothing
    in the component bounds the number of requests made for one
    recognised answer. *)
Theorem effect_resubmits (n : nat) : ∀ (R : Running) answer,
  mounted (screen R) = true →
  reported (screen R) = [] →
  effect_due R = true →
  finalAnswer (screen R) = Some answer →
  truthy (trim answer) = true →
  turns (screen R) ≠ [] →
  ∃ R',
    fire_all svc P (replicate n DoEffect) R = Some R'
    ∧ sent R'
      = sent R
        ++ replicate n
             (TurnRequest None
                (conversationHistory (screen R)
                 ++ [ {| c_role := User; c_text := answer |} ]))
    ∧ tasks R'
      = tasks R
        ++ replicate n
             (AwaitAnswer answer
                (conversationHistory (screen R)
                 ++ [ {| c_role := User; c_text := answer |} ]))
    ∧ effect_due R' = true
    ∧ finalAnswer (screen R') = Some answer
    ∧ length (turns (screen R')) = length (turns (screen R)).
Proof.
  induction n as [|n IH]; intros R answer Hmounted Hreported Hdue Hanswer Htrim
    Hturns.
  - exists R. simpl. by rewrite !app_nil_r.
  - destruct (run_effect_submits R answer Hanswer Htrim Hturns)
      as (Hsent & Htasks & Hdue' & Hanswer' & Hhistory & Hturns' & Hlength
          & Hmounted' & Hreported' & _).
    destruct (IH (run_effect R) answer) as (R' & Hrun & Hsent' & Htasks' & Hd
                                            & Ha & Hl); try done.
    { by rewrite Hmounted'. }
    { by rewrite Hreported'. }
    exists R'. simpl. rewrite Hmounted, Hreported, Hdue. simpl.
    split; [done|].
    rewrite Hsent', Htasks', Hsent, Htasks, Hhistory, <- !app_assoc.
    split; [done|]. split; [done|]. split; [done|]. split; [done|].
    by rewrite Hl.
Qed.

End Resubmission.

Lemma effect_resubmits_witness :
  match fire_promptly closing_services sample_props true
          (first_question_steps 1
           ++ [ DoMicrophone 0 true; DoResult (js "I write compilers."); DoEnd ])
          running0 with
  | Some R =>
      ∃ R', fire_all closing_services sample_props (replicate 8 DoEffect) R
            = Some R'
            ∧ length (sent R') = (length (sent R) + 8)%nat
            ∧ length (tasks R') = 8%nat
  | None => False
  end.
Proof.
  destruct (fire_promptly _ _ _ _ running0) as [R|] eqn:Hrun;
    [|vm_compute in Hrun; discriminate Hrun].
  vm_compute in Hrun. injection Hrun as <-.
  lazymatch goal with
  | |- ∃ R', fire_all _ _ _ ?R0 = _ ∧ _ =>
      destruct (effect_resubmits closing_services sample_props 8 R0
                  (js "I write compilers."))
        as (R' & Hfire & Hsent & Htasks & _); [reflexivity..|done|]
  end.
  exists R'. split; [exact Hfire|].
  rewrite Hsent, Htasks, !length_app, !length_replicate. done.
Defined.

(** ** The conversation history, handlers interleaved *)

Lemma takes_turns_exchange (h : list content) : ∀ next answer reply,
  takes_turns next h →
  c_role <$> last h = Some Model →
  takes_turns next
    (h ++ [ {| c_role := User; c_text := answer |};
            {| c_role := Model; c_text := reply |} ]).
Proof.
  induction h as [|x h IH]; intros next answer reply Hturns Hlast; [done|].
  destruct h as [|y h].
  - simpl in *. destruct Hturns as [Hx _]. injection Hlast as Hm.
    rewrite Hm in Hx. subst next. by rewrite Hm.
  - destruct Hturns as [Hx Hrest]. split; [done|].
    apply IH; [done|]. by rewrite last_cons_cons in Hlast.
Qed.

Lemma close_last_turn_nil now turnData (prevTurns : list Turn) :
  close_last_turn now turnData prevTurns = [] ↔ prevTurns = [].
Proof.
  split; [|by intros ->].
  destruct (decide (prevTurns = [])) as [|Hne]; [done|].
  destruct (exists_last Hne) as (ts & lastTurn & ->).
  rewrite close_last_turn_snoc. by destruct ts.
Qed.

Lemma history_kept_same (R R' : Running) :
  (turns (screen R') = [] ↔ turns (screen R) = []) →
  conversationHistory (screen R') = conversationHistory (screen R) →
  tasks R' = tasks R →
  history_kept R → history_kept R'.
Proof. unfold history_kept, history_shape. by intros -> -> ->. Qed.

Lemma history_kept_suspend t (R : Running) :
  awaits_answer t = false → history_kept R → history_kept (suspend t R).
Proof.
  intros Ht (Hshape & Hpending & Hnone). split; [done|]. simpl. split.
  - apply Forall_app. split; [done|]. apply Forall_singleton. by destruct t.
  - intros Hnil. apply Forall_app. split; [by apply Hnone|].
    by apply Forall_singleton.
Qed.

Lemma history_kept_resumed i (R : Running) :
  history_kept R → history_kept (resumed i R).
Proof.
  intros (Hshape & Hpending & Hnone). split; [done|]. simpl. split.
  - by apply Forall_delete.
  - intros Hnil. by apply Forall_delete, Hnone.
Qed.

Lemma history_kept_setFinalAnswer a (R : Running) :
  history_kept R → history_kept (run_setFinalAnswer a R).
Proof. unfold run_setFinalAnswer. by case_decide. Qed.

Ltac history_kept_step :=
  match goal with
  | H : history_kept ?R |- history_kept ?R => exact H
  | |- history_kept (run_setFinalAnswer _ _) => apply history_kept_setFinalAnswer
  | |- history_kept (suspend _ _) => apply history_kept_suspend; [reflexivity|]
  | |- history_kept (resumed _ _) => apply history_kept_resumed
  | |- history_kept (run_setStatus ?s ?R) => apply (history_kept_same R); [done..|]
  | |- history_kept (send ?rq ?R) => apply (history_kept_same R); [done..|]
  | |- history_kept (set_effect_due ?b ?R) => apply (history_kept_same R); [done..|]
  | |- history_kept (set_sounding ?n ?R) => apply (history_kept_same R); [done..|]
  | |- history_kept (on_screen ?f ?R) => apply (history_kept_same R); [done..|]
  | |- history_kept (match ?x with _ => _ end) => destruct x
  end.

Ltac history_kept_steps := cbv zeta; repeat history_kept_step.

Section HistoryKept.
Context (svc : Services) (P : Props).

Lemma history_kept_spoken caller R :
  history_kept R → history_kept (spoken caller R).
Proof. intros. unfold spoken. history_kept_steps. Qed.

Lemma history_kept_begin_speakText caller text R :
  history_kept R → history_kept (begin_speakText caller text R).
Proof.
  intros. unfold begin_speakText. history_kept_steps.
  by apply history_kept_spoken.
Qed.

Lemma history_kept_continue_speakText caller r R :
  history_kept R → history_kept (continue_speakText svc caller r R).
Proof.
  intros. unfold continue_speakText.
  repeat first [history_kept_step | apply history_kept_spoken].
Qed.

Lemma history_kept_continue_decoded caller decoded R :
  history_kept R → history_kept (continue_decoded caller decoded R).
Proof.
  intros. unfold continue_decoded.
  repeat first [history_kept_step | apply history_kept_spoken].
Qed.

Lemma history_kept_continue_startInterview now r R :
  history_kept R → history_kept (continue_startInterview svc now r R).
Proof.
  intros Hkept. unfold continue_startInterview. cbv zeta.
  destruct r as [response|e]; [|history_kept_steps].
  destruct (JSON_parse_turn svc (r_text response)) as [turnData|];
    [|history_kept_steps].
  apply history_kept_begin_speakText.
  destruct Hkept as (_ & Hpending & _).
  split; [|split]; simpl; [|done|done].
  split; simpl; [done|]. intros _. by repeat split.
Qed.

Lemma history_kept_begin_handleAnswerSubmit answer R :
  history_kept R → history_kept (begin_handleAnswerSubmit answer R).
Proof.
  intros Hkept. unfold begin_handleAnswerSubmit.
  destruct (truthy (trim answer)); simpl; [|history_kept_steps].
  destruct (last (turns (screen R))) as [lastTurn|] eqn:Hlast; simpl;
    [|history_kept_steps].
  assert (Hturns : turns (screen R) ≠ [])
    by (by intros Hnil; rewrite Hnil in Hlast).
  destruct Hkept as ([Hiff Hsome] & Hpending & Hnone).
  assert (Hhist : conversationHistory (screen R) ≠ []) by (by rewrite <- Hiff).
  split; [|split]; simpl.
  - split; simpl; [|done]. rewrite <- Hiff.
    split; [by intros ?%fmap_nil_inv | by intros ->].
  - apply Forall_app. split; [done|]. apply Forall_singleton. simpl.
    exists (conversationHistory (screen R)). split; [done|]. by apply Hsome.
  - by intros ?%fmap_nil_inv.
Qed.

Lemma history_kept_continue_handleAnswerSubmit now answer updatedHistory r R :
  pending_history (AwaitAnswer answer updatedHistory) →
  turns (screen R) ≠ [] →
  history_kept R →
  history_kept (continue_handleAnswerSubmit svc now updatedHistory r R).
Proof.
  intros (h & -> & Hhead & Hroles & Hmodel) Hturns Hkept.
  unfold continue_handleAnswerSubmit. cbv zeta.
  destruct r as [response|e]; [|history_kept_steps].
  destruct (JSON_parse_turn svc (r_text response)) as [turnData|];
    [|history_kept_steps].
  assert (Hnew : history_kept
            (on_screen
               (setHistory
                  ((h ++ [ {| c_role := User; c_text := answer |} ])
                   ++ [ {| c_role := Model;
                           c_text := JSON_stringify_turn svc turnData |} ]))
               (run_setTurns (close_last_turn now turnData) R))).
  { destruct Hkept as (_ & Hpending & _).
    split; [|split]; simpl; [|done|].
    - split; simpl.
      + rewrite close_last_turn_nil. split; [done|].
        intros Hnil. by destruct h.
      + intros _. rewrite <- app_assoc. simpl. split; [|split].
        * by destruct h.
        * by apply takes_turns_exchange.
        * by rewrite (last_app h [_; _]).
    - by rewrite close_last_turn_nil. }
  destruct (truthy (nextQuestion turnData)).
  - by apply history_kept_begin_speakText.
  - history_kept_steps.
Qed.

Lemma history_kept_fire step R R' :
  history_kept R → fire svc P step R = Some R' → history_kept R'.
Proof.
  intros Hkept Hfire.
  destruct step; simpl in Hfire;
    [ destruct (mounted (screen R)); [discriminate Hfire|];
      injection Hfire as <-; unfold begin_startInterview; history_kept_steps
    | destruct (mounted (screen R) && is_nil (reported (screen R)));
      [|discriminate Hfire] .. ].
  - destruct (effect_due R); [|discriminate Hfire]. injection Hfire as <-.
    unfold run_effect. cbv zeta.
    assert (Hdue : history_kept (set_effect_due false R))
      by history_kept_steps.
    simpl. destruct (finalAnswer _) as [answer|]; [|done].
    destruct (truthy answer); [|done].
    by apply history_kept_begin_handleAnswerSubmit.
  - destruct (tasks R !! i) as [[]|] eqn:Htask; try discriminate Hfire;
      injection Hfire as <-.
    + apply history_kept_continue_startInterview. history_kept_steps.
    + destruct Hkept as (Hshape & Hpending & Hnone).
      apply (history_kept_continue_handleAnswerSubmit now answer).
      * apply (Forall_lookup_1 _ _ _ _ Hpending Htask).
      * simpl. intros Hnil.
        by pose proof (Forall_lookup_1 _ _ _ _ (Hnone Hnil) Htask).
      * by apply history_kept_resumed.
    + apply history_kept_continue_speakText. history_kept_steps.
    + unfold continue_handleEndInterview. history_kept_steps.
  - destruct (tasks R !! i) as [[]|]; try discriminate Hfire;
      injection Hfire as <-.
    unfold continue_microphone. history_kept_steps.
  - destruct (tasks R !! i) as [[]|]; try discriminate Hfire;
      injection Hfire as <-.
    + apply history_kept_continue_decoded. history_kept_steps.
    + history_kept_steps.
  - destruct (render_controls (screen R)) as [|? [] ?|]; try discriminate Hfire.
    injection Hfire as <-. unfold click_microphone. history_kept_steps.
  - destruct (end_disabled (screen R)); [discriminate Hfire|].
    injection Hfire as <-. unfold click_end. history_kept_steps.
  - destruct (recognizing (screen R)); [|discriminate Hfire].
    injection Hfire as <-. history_kept_steps.
  - destruct (recognizing (screen R)); [|discriminate Hfire].
    injection Hfire as <-. history_kept_steps.
  - destruct (recognizing (screen R)); [|discriminate Hfire].
    injection Hfire as <-. unfold run_onend. history_kept_steps.
  - destruct (sounding R); [discriminate Hfire|].
    injection Hfire as <-. history_kept_steps.
Qed.

(** X16.  However the handlers interleave, the conversation history is
    empty exactly when there is no turn; otherwise it opens with the
    user's ['Start the interview.'], alternates user and model entries
    and ends with a model entry. *)
Theorem running_history (R : Running) :
  running svc P R →
  (turns (screen R) = [] ↔ conversationHistory (screen R) = [])
  ∧ (conversationHistory (screen R) ≠ [] →
     head (conversationHistory (screen R)) = Some start_message
     ∧ takes_turns User (conversationHistory (screen R))
     ∧ c_role <$> last (conversationHistory (screen R)) = Some Model).
Proof.
  intros Hrun.
  assert (Hkept : history_kept R).
  { induction Hrun as [|step R R' _ IH Hfire].
    - split; [|split]; simpl; done.
    - by apply (history_kept_fire step R). }
  apply Hkept.
Qed.

End HistoryKept.

Lemma running_history_witness :
  match fire_promptly closing_services sample_props true
          (first_question_steps 1 ++ answer_steps 2
           ++ [ DoSettle 0 turn_reply 200; DoEffect; DoSettle 0 turn_reply 300 ])
          running0 with
  | Some R =>
      length (conversationHistory (screen R)) = 4%nat
      ∧ takes_turns User (conversationHistory (screen R))
  | None => False
  end.
Proof.
  destruct (fire_promptly _ _ _ _ _) as [R|] eqn:Hrun;
    [|vm_compute in Hrun; discriminate Hrun].
  assert (Hreach : running closing_services sample_props R)
    by (by eapply fire_promptly_running).
  vm_compute in Hrun. injection Hrun as <-.
  split; [reflexivity|].
  eapply proj1, proj2,
    (running_history closing_services sample_props _ Hreach).
  done.
Defined.
